(** * Battery dispatch optimiser: a shallow embedding of [optimizer.py]

    The embedding follows [run] line by line.  Python numbers are kept
    abstract behind the interface [Num], which lists exactly the
    operations [run] and its closures perform on them.  Two instances are
    given: exact rationals ([Q]), used for the algebraic statements, and
    IEEE binary64 ([PrimFloat.float]), which is what the interpreter
    computes with.  Statements that need no law of arithmetic are proved
    once, for every instance.

    The call to [scipy.optimize.minimize] is the only interaction of
    [run] with code outside the module; [run] is therefore a [process]
    that either completes on its own or hands a [problem] to the solver
    together with the continuation that consumes the solver's reply. *)

From Stdlib Require Import String List Arith Lia Bool ZArith QArith Qfield PrimFloat.
Import ListNotations.

Set Implicit Arguments.
Close Scope Q_scope.

(** ** Exceptions and fallible computations *)

Inductive exn : Set :=
| TypeError
| ZeroDivisionError
| IndexError
| ValueError.

Inductive result (A : Type) : Type :=
| Ok (a : A)
| Err (e : exn).

Arguments Ok {A} a.
Arguments Err {A} e.

Definition bind {A B : Type} (r : result A) (k : A -> result B) : result B :=
  match r with
  | Ok a => k a
  | Err e => Err e
  end.

Declare Scope py_scope.
Delimit Scope py_scope with py.
Notation "x <- r ;; k" := (bind r (fun x => k))
  (at level 61, r at next level, right associativity) : py_scope.
Open Scope py_scope.

(** ** Numbers *)

Class Num (F : Type) : Type := {
  fzero : F;
  fone : F;
  fadd : F -> F -> F;
  fsub : F -> F -> F;
  fmul : F -> F -> F;
  fdiv : F -> F -> F;
  feqb : F -> F -> bool;
  fleb : F -> F -> bool;
  fltb : F -> F -> bool;
  flit : Q -> F
}.

(** Exact rationals. *)
#[export] Instance Q_Num : Num Q := {|
  fzero := 0%Q;
  fone := 1%Q;
  fadd := Qplus;
  fsub := Qminus;
  fmul := Qmult;
  fdiv := Qdiv;
  feqb := Qeq_bool;
  fleb := Qle_bool;
  fltb := fun a b => negb (Qle_bool b a);
  flit := fun q => q
|}.

(** IEEE binary64.  A decimal literal [n/d] with small [n] and [d] is the
    correctly rounded quotient of two exactly representable integers,
    which is the double the Python parser produces for it. *)
Fixpoint float_of_pos (p : positive) : float :=
  match p with
  | xH => PrimFloat.one
  | xO p' => PrimFloat.mul PrimFloat.two (float_of_pos p')
  | xI p' => PrimFloat.add (PrimFloat.mul PrimFloat.two (float_of_pos p')) PrimFloat.one
  end.

Definition float_of_Z (z : Z) : float :=
  match z with
  | Z0 => PrimFloat.zero
  | Zpos p => float_of_pos p
  | Zneg p => PrimFloat.opp (float_of_pos p)
  end.

#[export] Instance float_Num : Num float := {|
  fzero := PrimFloat.zero;
  fone := PrimFloat.one;
  fadd := PrimFloat.add;
  fsub := PrimFloat.sub;
  fmul := PrimFloat.mul;
  fdiv := PrimFloat.div;
  feqb := PrimFloat.eqb;
  fleb := PrimFloat.leb;
  fltb := PrimFloat.ltb;
  flit := fun q => PrimFloat.div (float_of_Z (Qnum q)) (float_of_pos (Qden q))
|}.

Section Dispatch.

Context {F : Type} `{NF : Num F}.

(** ** Python and NumPy primitives used by [run] *)

(** [a / b] on Python scalars. *)
Definition py_div (a b : F) : result F :=
  if feqb b fzero then Err ZeroDivisionError else Ok (fdiv a b).

(** [len(v)], where [v] may be [None]. *)
Definition len (v : option (list F)) : result nat :=
  match v with
  | Some l => Ok (length l)
  | None => Err TypeError
  end.

(** [np.full(n, v)] and [np.zeros(n)]. *)
Definition np_full (n : nat) (v : F) : list F := repeat v n.
Definition np_zeros (n : nat) : list F := repeat fzero n.

(** [slice(start, stop)] and [x[s]] for non-negative [start], [stop]:
    indices past the end are clipped, never an error. *)
Definition slice : Set := (nat * nat)%type.

Definition getslice {A : Type} (x : list A) (s : slice) : list A :=
  firstn (snd s - fst s) (skipn (fst s) x).

(** [v[1:]] and [v[:-1]]. *)
Definition from1 {A : Type} (v : list A) : list A := skipn 1 v.
Definition upto_last {A : Type} (v : list A) : list A := firstn (length v - 1) v.

(** [v[0]] and [v[-1]]. *)
Definition item0 {A : Type} (v : list A) : result A :=
  match v with
  | [] => Err IndexError
  | a :: _ => Ok a
  end.

Definition item_last {A : Type} (v : list A) : result A :=
  match nth_error v (length v - 1) with
  | Some a => Ok a
  | None => Err IndexError
  end.

(** Element-wise binary operation on two one-dimensional arrays, with
    NumPy's broadcasting rule: equal lengths, or one side of length 1. *)
Fixpoint zip_with (op : F -> F -> F) (a b : list F) : list F :=
  match a, b with
  | u :: a', v :: b' => op u v :: zip_with op a' b'
  | _, _ => []
  end.

Definition broadcast (op : F -> F -> F) (a b : list F) : result (list F) :=
  if length a =? length b then Ok (zip_with op a b)
  else match a, b with
       | [u], _ => Ok (map (op u) b)
       | _, [v] => Ok (map (fun u => op u v) a)
       | _, _ => Err ValueError
       end.

(** Array-by-scalar operation. *)
Definition scale (op : F -> F -> F) (a : list F) (s : F) : list F :=
  map (fun u => op u s) a.

(** The builtin [sum]: a left fold that starts from 0. *)
Definition sum (a : list F) : F := fold_left fadd a fzero.

(** ** The call's arguments *)

Record params : Type := {
  capacity : F;
  volume : F;
  efficiency : F;
  input_soc : F;
  prices : option (list F);
  charge_cost : F;
  discharge_cost : F;
  activation : F;
  time_frequency : F;
  final_soc : F
}.

(** The defaults of the signature. *)
Definition defaults : params := {|
  capacity := flit 1%Q;
  volume := flit 1%Q;
  efficiency := flit (9 # 10)%Q;
  input_soc := flit (1 # 2)%Q;
  prices := None;
  charge_cost := flit 5%Q;
  discharge_cost := flit 5%Q;
  activation := flit 5%Q;
  time_frequency := flit (1 # 2)%Q;
  final_soc := flit (1 # 2)%Q
|}.

(** ** The local frame of [run]

    Everything [run] binds before it defines its closures.  The three
    cost names are rebound from scalars to vectors; the rebound values
    carry a prime. *)

Record frame : Type := {
  call : params;
  period : nat;
  charge_cost' : list F;
  discharge_cost' : list F;
  activation' : list F;
  mw_to_mwh : F;
  steps_full_trip : F;
  soc_step : list F;
  x0 : list F;
  charge_idx : slice;
  discharge_idx : slice;
  soc_idx : slice;
  charge_bounds : list (F * F);
  discharge_bounds : list (F * F);
  soc_bounds : list (F * F);
  all_bounds : list (F * F)
}.

Definition run_locals (a : params) : result frame :=
  period <- len (prices a) ;;
  let charge_cost' := np_full period (charge_cost a) in
  let discharge_cost' := np_full period (discharge_cost a) in
  let activation' := np_full period (activation a) in
  let mw_to_mwh := time_frequency a in
  q1 <- py_div (volume a) (capacity a) ;;
  r1 <- py_div fone (time_frequency a) ;;
  let steps_full_trip := fmul q1 r1 in
  q2 <- py_div (volume a) (capacity a) ;;
  r2 <- py_div fone steps_full_trip ;;
  let soc_step := np_full period (fmul q2 r2) in
  let x0 := np_zeros (period * 3) in
  let charge_idx := (0, period) in
  let discharge_idx := (period, period * 2) in
  let soc_idx := (period * 2, period * 3) in
  let charge_bounds := repeat (fzero, capacity a) period in
  let discharge_bounds := repeat (fzero, capacity a) period in
  let soc_bounds := repeat (fzero, volume a) period in
  let all_bounds := charge_bounds ++ discharge_bounds ++ soc_bounds in
  Ok {| call := a;
        period := period;
        charge_cost' := charge_cost';
        discharge_cost' := discharge_cost';
        activation' := activation';
        mw_to_mwh := mw_to_mwh;
        steps_full_trip := steps_full_trip;
        soc_step := soc_step;
        x0 := x0;
        charge_idx := charge_idx;
        discharge_idx := discharge_idx;
        soc_idx := soc_idx;
        charge_bounds := charge_bounds;
        discharge_bounds := discharge_bounds;
        soc_bounds := soc_bounds;
        all_bounds := all_bounds |}.

(** ** The closures

    Each closure reads the enclosing frame [fr]. *)

Section Closures.

Variable fr : frame.

Definition objective (x p : list F) : result F :=
  let charge := getslice x (charge_idx fr) in
  let discharge := getslice x (discharge_idx fr) in
  pc <- broadcast fadd p (charge_cost' fr) ;;
  buy <- broadcast fmul
           (scale fmul (scale fmul charge (mw_to_mwh fr)) (efficiency (call fr))) pc ;;
  pd <- broadcast fsub p (discharge_cost' fr) ;;
  pda <- broadcast fsub pd (activation' fr) ;;
  sell <- broadcast fmul (scale fmul discharge (mw_to_mwh fr)) pda ;;
  Ok (fsub (sum buy) (sum sell)).

Definition soc_change (x : list F) : result (list F) :=
  let charge := getslice x (charge_idx fr) in
  let discharge := getslice x (discharge_idx fr) in
  let soc := getslice x (soc_idx fr) in
  d <- broadcast fsub (from1 soc) (upto_last soc) ;;
  c <- broadcast fmul (scale fmul (upto_last charge) (efficiency (call fr)))
         (upto_last (soc_step fr)) ;;
  dc <- broadcast fsub d c ;;
  e <- broadcast fmul (upto_last discharge) (upto_last (soc_step fr)) ;;
  broadcast fadd dc e.

Definition start_soc (x : list F) : result F :=
  let soc := getslice x (soc_idx fr) in
  s <- item0 soc ;;
  Ok (fsub s (input_soc (call fr))).

Definition end_soc (x : list F) : result F :=
  let soc := getslice x (soc_idx fr) in
  s <- item_last soc ;;
  Ok (fsub s (final_soc (call fr))).

Definition no_final_discharge (x : list F) : result F :=
  let discharge := getslice x (discharge_idx fr) in
  item_last discharge.

End Closures.

(** ** The solver interface *)

(** What a constraint function hands back: a scalar or an array. *)
Inductive residual : Type :=
| Scalar (v : F)
| Vector (v : list F).

Record constraint : Type := {
  c_type : string;
  c_fun : list F -> result residual
}.

(** The arguments of [minimize]. *)
Record problem : Type := {
  m_fun : list F -> list F -> result F;
  m_x0 : list F;
  m_args : option (list F);
  m_method : string;
  m_bounds : list (F * F);
  m_constraints : list constraint
}.

(** The object [minimize] returns. *)
Record OptimizeResult : Type := {
  sol_x : list F;
  sol_fun : F;
  sol_success : bool;
  sol_message : string;
  sol_nit : nat
}.

(** [minimize] either returns or raises; [run] installs no handler. *)
Inductive solver_reply : Type :=
| Returned (sol : OptimizeResult)
| Threw (e : exn).

Definition output : Type := (list F * list F * list F * OptimizeResult)%type.

Inductive completion : Type :=
| Return (v : output)
| Raise (e : exn).

Inductive process : Type :=
| Done (c : completion)
| CallMinimize (pb : problem) (k : solver_reply -> completion).

(** ** [run] *)

Definition constraints (fr : frame) : list constraint :=
  [ {| c_type := "eq"; c_fun := fun x => v <- soc_change fr x ;; Ok (Vector v) |};
    {| c_type := "eq"; c_fun := fun x => v <- start_soc fr x ;; Ok (Scalar v) |};
    {| c_type := "eq"; c_fun := fun x => v <- end_soc fr x ;; Ok (Scalar v) |};
    {| c_type := "eq"; c_fun := fun x => v <- no_final_discharge fr x ;; Ok (Scalar v) |} ].

Definition minimize_call (fr : frame) : problem :=
  {| m_fun := objective fr;
     m_x0 := x0 fr;
     m_args := prices (call fr);
     m_method := "SLSQP";
     m_bounds := all_bounds fr;
     m_constraints := constraints fr |}.

(** What [run] does with the solver's reply.  Dividing an array by a
    scalar is NumPy's division and raises nothing. *)
Definition extract (fr : frame) (reply : solver_reply) : completion :=
  match reply with
  | Threw e => Raise e
  | Returned sol =>
      let obj := sol_fun sol in
      let charge := getslice (sol_x sol) (charge_idx fr) in
      let discharge := getslice (sol_x sol) (discharge_idx fr) in
      let soc := scale fdiv (getslice (sol_x sol) (soc_idx fr)) (volume (call fr)) in
      Return (charge, discharge, soc, sol)
  end.

Definition run (a : params) : process :=
  match run_locals a with
  | Err e => Done (Raise e)
  | Ok fr => CallMinimize (minimize_call fr) (extract fr)
  end.

(** Running a process against a given solver. *)
Definition exec (solver : problem -> solver_reply) (pr : process) : completion :=
  match pr with
  | Done c => c
  | CallMinimize pb k => k (solver pb)
  end.

End Dispatch.

(** ** Vocabulary of the statements

    The specification speaks of [charge[i]], [discharge[i]] and [soc[i]];
    in the flat vector these sit at offsets 0, [period] and [2 * period]. *)

Section Reading.

Context {F : Type} `{NF : Num F}.

Definition charge_at (n : nat) (x : list F) (i : nat) : F := nth i x fzero.
Definition discharge_at (n : nat) (x : list F) (i : nat) : F := nth (n + i) x fzero.
Definition soc_at (n : nat) (x : list F) (i : nat) : F := nth (2 * n + i) x fzero.

(** [sigma n f] is the sum of [f 0], ..., [f (n - 1)], added in that order. *)
Definition sigma (n : nat) (f : nat -> F) : F :=
  fold_left (fun acc i => fadd acc (f i)) (seq 0 n) fzero.

(** The divisors of the three scalar divisions, in evaluation order:
    [capacity], [time_frequency] and [steps_full_trip]. *)
Definition divisors_ok (a : params) : bool :=
  negb (feqb (capacity a) fzero)
  && negb (feqb (time_frequency a) fzero)
  && negb (feqb (fmul (fdiv (volume a) (capacity a))
                      (fdiv fone (time_frequency a))) fzero).

(** A constraint is met at [x] when its function returns the scalar 0. *)
Definition met (r : result F) : bool :=
  match r with
  | Ok v => feqb v fzero
  | Err _ => false
  end.

(** The same for a constraint that returns an array: every entry is 0. *)
Definition met_all (r : result (list F)) : bool :=
  match r with
  | Ok v => forallb (fun u => feqb u fzero) v
  | Err _ => false
  end.

(** The parameter errors the specification lists: capacity or volume not
    positive, fewer than two periods, or a fraction outside [0, 1]. *)
Definition outside_unit (v : F) : bool := fltb v fzero || fltb fone v.

Definition period_of (a : @params F) : nat :=
  match prices a with
  | Some p => length p
  | None => 0
  end.

Definition invalid (a : params) : bool :=
  fleb (capacity a) fzero
  || fleb (volume a) fzero
  || (period_of a <? 2)
  || outside_unit (efficiency a)
  || outside_unit (input_soc a)
  || outside_unit (final_soc a).

(** A solver that answers every problem with the same result. *)
Definition answering (sol : @OptimizeResult F) : @problem F -> @solver_reply F :=
  fun _ => Returned sol.

End Reading.

(** ** Sample calls *)

(** A 1 MW / 2 MWh battery over four half-hours, rationals. *)
Definition two_mwh : @params Q := {|
  capacity := 1%Q;
  volume := 2%Q;
  efficiency := (9 # 10)%Q;
  input_soc := (1 # 2)%Q;
  prices := Some [10%Q; 50%Q; 10%Q; 50%Q];
  charge_cost := 5%Q;
  discharge_cost := 5%Q;
  activation := 5%Q;
  time_frequency := (1 # 2)%Q;
  final_soc := (1 # 2)%Q
|}.

(** A decision vector for [two_mwh]: nothing charged, nothing discharged,
    soc held at 1/2. *)
Definition idle_x : list Q :=
  [0%Q; 0%Q; 0%Q; 0%Q;
   0%Q; 0%Q; 0%Q; 0%Q;
   (1 # 2)%Q; (1 # 2)%Q; (1 # 2)%Q; (1 # 2)%Q].

(** The same schedule with another soc segment. *)
Definition idle_x' : list Q :=
  [0%Q; 0%Q; 0%Q; 0%Q;
   0%Q; 0%Q; 0%Q; 0%Q;
   1%Q; (3 # 2)%Q; 2%Q; 0%Q].

Definition idle_sol (ok : bool) : @OptimizeResult Q := {|
  sol_x := idle_x;
  sol_fun := 0%Q;
  sol_success := ok;
  sol_message := "";
  sol_nit := 1
|}.

(** For [two_mwh]: charge in periods 0 and 2, discharge in period 1. *)
Definition trade_x : list Q :=
  [1%Q; 0%Q; 1%Q; 0%Q;
   0%Q; 1%Q; 0%Q; 0%Q;
   (1 # 2)%Q; (19 # 20)%Q; (9 # 20)%Q; (9 # 10)%Q].

(** A call with a negative capacity. *)
Definition negative_capacity : @params Q := {|
  capacity := (-1)%Q;
  volume := 1%Q;
  efficiency := (9 # 10)%Q;
  input_soc := (1 # 2)%Q;
  prices := Some [10%Q; 50%Q; 10%Q];
  charge_cost := 5%Q;
  discharge_cost := 5%Q;
  activation := 5%Q;
  time_frequency := (1 # 2)%Q;
  final_soc := (1 # 2)%Q
|}.

(** A call with a zero capacity. *)
Definition zero_capacity : @params Q := {|
  capacity := 0%Q;
  volume := 1%Q;
  efficiency := (9 # 10)%Q;
  input_soc := (1 # 2)%Q;
  prices := Some [10%Q; 50%Q; 10%Q];
  charge_cost := 5%Q;
  discharge_cost := 5%Q;
  activation := 5%Q;
  time_frequency := (1 # 2)%Q;
  final_soc := (1 # 2)%Q
|}.

(** A 3 MW / 10 MWh battery over four hours, every argument different
    from those of [two_mwh]. *)
Definition ten_mwh : @params Q := {|
  capacity := 3%Q;
  volume := 10%Q;
  efficiency := (3 # 4)%Q;
  input_soc := 0%Q;
  prices := Some [40%Q; 20%Q; 30%Q; 60%Q];
  charge_cost := 1%Q;
  discharge_cost := 2%Q;
  activation := 3%Q;
  time_frequency := 1%Q;
  final_soc := 1%Q
|}.


(** ** Bounds *)

Section Bounds.

Context {F : Type} `{NF : Num F}.

(** [x] has one entry per interval and each entry lies in its interval. *)
Definition within (b : list (F * F)) (x : list F) : bool :=
  (length b =? length x)
  && forallb (fun bv => fleb (fst (fst bv)) (snd bv) && fleb (snd bv) (snd (fst bv)))
             (combine b x).

(** The residual of the transition from period [i] to period [i + 1]. *)
Definition transition (fr : frame) (x : list F) (i : nat) : F :=
  fadd (fsub (fsub (soc_at (period fr) x (i + 1)) (soc_at (period fr) x i))
             (fmul (fmul (charge_at (period fr) x i) (efficiency (call fr)))
                   (nth i (soc_step fr) fzero)))
       (fmul (discharge_at (period fr) x i) (nth i (soc_step fr) fzero)).

(** The number of scalar equations a residual stands for. *)
Definition residual_size (r : @residual F) : nat :=
  match r with
  | Scalar _ => 1
  | Vector v => length v
  end.

(** The cost of charging and the revenue of discharging in period [i]. *)
Definition buy (fr : frame) (x p : list F) (i : nat) : F :=
  fmul (fmul (fmul (charge_at (period fr) x i) (mw_to_mwh fr)) (efficiency (call fr)))
       (fadd (nth i p fzero) (nth i (charge_cost' fr) fzero)).

Definition sell (fr : frame) (x p : list F) (i : nat) : F :=
  fmul (fmul (discharge_at (period fr) x i) (mw_to_mwh fr))
       (fsub (fsub (nth i p fzero) (nth i (discharge_cost' fr) fzero))
             (nth i (activation' fr) fzero)).

End Bounds.

(** ** The dashboard callback of [app.py]

    [run_model] is the only caller of [run].  The price table [df] is
    read once at import; the callback uses two of its columns.  The
    state values of the form are taken to be numbers and [n_clicks] a
    count.  The figure is kept as the data the callback puts into it. *)

Class Opp (F : Type) : Type := fopp : F -> F.

#[export] Instance Q_Opp : Opp Q := Qopp.
#[export] Instance float_Opp : Opp float := PrimFloat.opp.

Section Dashboard.

Context {F : Type} `{NF : Num F} `{OF : Opp F}.

Record dataframe : Type := {
  day_ahead : list F;
  timestamp : list string
}.

Inductive trace_kind : Set := Scatter | Bar.

Record trace : Type := {
  t_kind : trace_kind;
  t_x : list string;
  t_y : list F;
  t_name : string;
  t_row : nat;
  t_col : nat
}.

Record figure : Type := {
  fig_rows : nat;
  fig_cols : nat;
  fig_shared_xaxes : bool;
  fig_traces : list trace;
  fig_yaxes : list (nat * nat * string);
  fig_title : string;
  fig_barmode : string;
  fig_traceorder : string;
  fig_height : nat
}.

(** What the callback returns: [None], or a list of graphs. *)
Inductive children : Type :=
| NoChildren
| Graphs (g : list figure).

Inductive app_completion : Type :=
| AppReturn (c : children)
| AppRaise (e : exn).

Inductive app_process : Type :=
| AppDone (c : app_completion)
| AppCallMinimize (pb : @problem F) (k : @solver_reply F -> app_completion).

(** [str(b)] for a boolean. *)
Definition str_bool (b : bool) : string := if b then "True" else "False".

(** The lines of [run_model] after the call to [run]. *)
Definition render (df : dataframe) (prices : list F) (v : @output F) : children :=
  let '(charge, discharge, soc, sol) := v in
  let t := timestamp df in
  Graphs
    [ {| fig_rows := 3;
         fig_cols := 1;
         fig_shared_xaxes := true;
         fig_traces :=
           [ {| t_kind := Scatter; t_x := t; t_y := prices;
                t_name := "Price"; t_row := 1; t_col := 1 |};
             {| t_kind := Bar; t_x := t; t_y := map fopp charge;
                t_name := "Charging"; t_row := 2; t_col := 1 |};
             {| t_kind := Bar; t_x := t; t_y := discharge;
                t_name := "Discharging"; t_row := 2; t_col := 1 |};
             {| t_kind := Scatter; t_x := t; t_y := scale fmul soc (flit 100%Q);
                t_name := "SoC"; t_row := 3; t_col := 1 |} ];
         fig_yaxes := [ (1, 1, "£/MWh"%string); (2, 1, "MW"%string); (3, 1, "%"%string) ];
         fig_title :=
           ("Model results (optimization status: " ++ str_bool (sol_success sol) ++ ")")%string;
         fig_barmode := "stack";
         fig_traceorder := "reversed";
         fig_height := 800 |} ].

(** The keyword arguments [run_model] passes to [run]; [time_frequency]
    and [final_soc] are left to their defaults. *)
Definition run_model_call (df : dataframe)
    (capacity volume efficiency input_soc charge_cost discharge_cost strike : F)
    : @params F :=
  {| capacity := capacity;
     volume := volume;
     efficiency := fdiv efficiency (flit 100%Q);
     input_soc := fdiv input_soc (flit 100%Q);
     prices := Some (day_ahead df);
     charge_cost := charge_cost;
     discharge_cost := discharge_cost;
     activation := strike;
     time_frequency := time_frequency defaults;
     final_soc := final_soc defaults |}.

Definition run_model (df : dataframe) (n_clicks : nat)
    (capacity volume efficiency input_soc charge_cost discharge_cost strike : F)
    : app_process :=
  if n_clicks =? 0 then AppDone (AppReturn NoChildren)
  else
    let prices := day_ahead df in
    match run (run_model_call df capacity volume efficiency input_soc
                 charge_cost discharge_cost strike) with
    | Done (Return v) => AppDone (AppReturn (render df prices v))
    | Done (Raise e) => AppDone (AppRaise e)
    | CallMinimize pb k =>
        AppCallMinimize pb (fun reply =>
          match k reply with
          | Return v => AppReturn (render df prices v)
          | Raise e => AppRaise e
          end)
    end.

(** The data of the SoC trace of what the callback returned. *)
Definition soc_trace (c : app_completion) : option (list F) :=
  match c with
  | AppReturn (Graphs [g]) =>
      match fig_traces g with
      | [_; _; _; t] => Some (t_y t)
      | _ => None
      end
  | _ => None
  end.

End Dashboard.

(** ** More sample calls *)

(** For [two_mwh]: charge at full power in period 0, give the stored
    energy back in period 1; soc goes 1/2, 19/20, 1/2, 1/2. *)
Definition round_trip_x : list Q :=
  [1%Q; 0%Q; 0%Q; 0%Q;
   0%Q; (9 # 10)%Q; 0%Q; 0%Q;
   (1 # 2)%Q; (19 # 20)%Q; (1 # 2)%Q; (1 # 2)%Q].

(** [round_trip_x] with another charge and discharge in the last period. *)
Definition round_trip_x' : list Q :=
  [1%Q; 0%Q; 0%Q; (1 # 3)%Q;
   0%Q; (9 # 10)%Q; 0%Q; (2 # 3)%Q;
   (1 # 2)%Q; (19 # 20)%Q; (1 # 2)%Q; (1 # 2)%Q].

Definition round_trip_sol : @OptimizeResult Q := {|
  sol_x := round_trip_x;
  sol_fun := 0%Q;
  sol_success := true;
  sol_message := "";
  sol_nit := 1
|}.

(** [two_mwh] with no price and with a single price. *)
Definition with_prices (p : list Q) : @params Q := {|
  capacity := capacity two_mwh;
  volume := volume two_mwh;
  efficiency := efficiency two_mwh;
  input_soc := input_soc two_mwh;
  prices := Some p;
  charge_cost := charge_cost two_mwh;
  discharge_cost := discharge_cost two_mwh;
  activation := activation two_mwh;
  time_frequency := time_frequency two_mwh;
  final_soc := final_soc two_mwh
|}.

(** Binary64 calls on three half-hours with a given capacity and volume;
    [0x1.4e718d7d7625ap+664] is the double of [1e200] and
    [0x1.87e92154ef7acp-665] that of [1e-200]. *)
Definition sized (c v : float) : @params float := {|
  capacity := c;
  volume := v;
  efficiency := flit (9 # 10)%Q;
  input_soc := flit (1 # 2)%Q;
  prices := Some [flit 10%Q; flit 50%Q; flit 10%Q];
  charge_cost := flit 5%Q;
  discharge_cost := flit 5%Q;
  activation := flit 5%Q;
  time_frequency := flit (1 # 2)%Q;
  final_soc := flit (1 # 2)%Q
|}.

Definition huge_ratio : @params float :=
  sized 0x1.87e92154ef7acp-665%float 0x1.4e718d7d7625ap+664%float.

Definition tiny_ratio : @params float :=
  sized 0x1.4e718d7d7625ap+664%float 0x1.87e92154ef7acp-665%float.

(** A price table of four half-hours. *)
Definition four_rows : @dataframe Q := {|
  day_ahead := [10%Q; 50%Q; 10%Q; 50%Q];
  timestamp := ["00:00"; "00:30"; "01:00"; "01:30"]%string
|}.

(** ** Lists, slices and broadcasting *)

Section ArrayFacts.

Context {F : Type} `{NF : Num F}.

Lemma length_zip_with (op : F -> F -> F) (a b : list F) :
  length (zip_with op a b) = Nat.min (length a) (length b).
Proof.
  revert b; induction a as [|u a IH]; intros [|v b]; simpl; auto.
Qed.

Lemma nth_zip_with (op : F -> F -> F) (a b : list F) (i : nat) (d : F) :
  i < length a -> i < length b ->
  nth i (zip_with op a b) d = op (nth i a d) (nth i b d).
Proof.
  revert b i; induction a as [|u a IH]; intros [|v b] [|i]; simpl; try lia; auto.
  intros Ha Hb. apply IH; lia.
Qed.

Lemma broadcast_same (op : F -> F -> F) (a b : list F) :
  length a = length b -> broadcast op a b = Ok (zip_with op a b).
Proof.
  intros E. unfold broadcast. rewrite E, Nat.eqb_refl. reflexivity.
Qed.

Lemma length_scale (op : F -> F -> F) (a : list F) (s : F) :
  length (scale op a s) = length a.
Proof. apply length_map. Qed.

Lemma nth_scale (op : F -> F -> F) (a : list F) (s : F) (i : nat) (d : F) :
  i < length a -> nth i (scale op a s) d = op (nth i a d) s.
Proof.
  intros Hi. unfold scale.
  rewrite (nth_indep _ d (op d s)) by (rewrite length_map; exact Hi).
  apply (map_nth (fun u => op u s)).
Qed.

Lemma length_getslice {A : Type} (x : list A) (lo hi : nat) :
  length (getslice x (lo, hi)) = Nat.min (hi - lo) (length x - lo).
Proof.
  unfold getslice; simpl. now rewrite length_firstn, length_skipn.
Qed.

Lemma nth_getslice {A : Type} (x : list A) (lo hi i : nat) (d : A) :
  i < hi - lo -> nth i (getslice x (lo, hi)) d = nth (lo + i) x d.
Proof.
  intros Hi. unfold getslice; simpl.
  rewrite nth_firstn. apply Nat.ltb_lt in Hi. rewrite Hi.
  apply nth_skipn.
Qed.

Lemma length_from1 {A : Type} (v : list A) : length (from1 v) = length v - 1.
Proof. unfold from1. apply length_skipn. Qed.

Lemma length_upto_last {A : Type} (v : list A) : length (upto_last v) = length v - 1.
Proof. unfold upto_last. rewrite length_firstn. lia. Qed.

Lemma nth_from1 {A : Type} (v : list A) (i : nat) (d : A) :
  nth i (from1 v) d = nth (S i) v d.
Proof. unfold from1. apply (nth_skipn 1). Qed.

Lemma nth_upto_last {A : Type} (v : list A) (i : nat) (d : A) :
  i < length v - 1 -> nth i (upto_last v) d = nth i v d.
Proof.
  intros Hi. unfold upto_last. rewrite nth_firstn.
  apply Nat.ltb_lt in Hi. now rewrite Hi.
Qed.

(** The builtin [sum] adds the entries in index order. *)
Lemma fold_left_fadd_map (f : nat -> F) (ix : list nat) (z : F) :
  fold_left fadd (map f ix) z = fold_left (fun acc i => fadd acc (f i)) ix z.
Proof.
  revert z; induction ix as [|i ix IH]; intros z; simpl; auto.
Qed.

Lemma list_as_map_nth (l : list F) (d : F) :
  l = map (fun i => nth i l d) (seq 0 (length l)).
Proof.
  apply (nth_ext _ _ d (nth 0 l d)).
  - now rewrite length_map, length_seq.
  - intros i Hi.
    rewrite (map_nth (fun i => nth i l d) (seq 0 (length l)) 0 i).
    now rewrite seq_nth.
Qed.

Lemma sum_sigma (l : list F) :
  sum l = sigma (length l) (fun i => nth i l fzero).
Proof.
  unfold sum, sigma.
  rewrite (list_as_map_nth l fzero) at 1.
  apply fold_left_fadd_map.
Qed.

Lemma sigma_ext (n : nat) (f g : nat -> F) :
  (forall i, i < n -> f i = g i) -> sigma n f = sigma n g.
Proof.
  intros E. unfold sigma.
  rewrite <- !fold_left_fadd_map. f_equal.
  apply map_ext_in. intros i Hi. apply in_seq in Hi. apply E. lia.
Qed.

Lemma length_np_full (n : nat) (v : F) : length (np_full n v) = n.
Proof. apply repeat_length. Qed.

Lemma nth_np_full (n : nat) (v : F) (i : nat) :
  i < n -> nth i (np_full n v) fzero = v.
Proof. intros Hi. unfold np_full. now apply nth_repeat_lt. Qed.

End ArrayFacts.

(** ** Frames that [run_locals] builds *)

Section Frames.

Context {F : Type} `{NF : Num F}.

Lemma run_locals_Ok (a : params) (p : list F) :
  prices a = Some p -> divisors_ok a = true ->
  exists fr, run_locals a = Ok fr.
Proof.
  intros Hp Hd. unfold divisors_ok in Hd.
  apply andb_prop in Hd as [Hd H3]. apply andb_prop in Hd as [H1 H2].
  apply negb_true_iff in H1, H2, H3.
  unfold run_locals, py_div. rewrite Hp; simpl.
  rewrite H1; simpl. rewrite H2; simpl. rewrite H3; simpl.
  eexists; reflexivity.
Qed.

Lemma run_locals_Err (a : params) (p : list F) :
  prices a = Some p -> divisors_ok a = false ->
  run_locals a = Err ZeroDivisionError.
Proof.
  intros Hp Hd. unfold divisors_ok in Hd.
  unfold run_locals, py_div. rewrite Hp; simpl.
  destruct (feqb (capacity a) fzero); simpl; [reflexivity|].
  destruct (feqb (time_frequency a) fzero); simpl; [reflexivity|].
  simpl in Hd. apply negb_false_iff in Hd. rewrite Hd; simpl. reflexivity.
Qed.

Lemma run_locals_None (a : params) :
  prices a = None -> run_locals a = Err TypeError.
Proof. intros Hp. unfold run_locals. now rewrite Hp. Qed.

(** What a frame holds, field by field. *)
Lemma run_locals_inv (a : params) (fr : frame) :
  run_locals a = Ok fr ->
  exists p s,
    prices a = Some p /\ divisors_ok a = true /\
    fr = {| call := a;
            period := length p;
            charge_cost' := np_full (length p) (charge_cost a);
            discharge_cost' := np_full (length p) (discharge_cost a);
            activation' := np_full (length p) (activation a);
            mw_to_mwh := time_frequency a;
            steps_full_trip := fmul (fdiv (volume a) (capacity a))
                                    (fdiv fone (time_frequency a));
            soc_step := np_full (length p) s;
            x0 := np_zeros (length p * 3);
            charge_idx := (0, length p);
            discharge_idx := (length p, length p * 2);
            soc_idx := (length p * 2, length p * 3);
            charge_bounds := repeat (fzero, capacity a) (length p);
            discharge_bounds := repeat (fzero, capacity a) (length p);
            soc_bounds := repeat (fzero, volume a) (length p);
            all_bounds := repeat (fzero, capacity a) (length p)
                          ++ repeat (fzero, capacity a) (length p)
                          ++ repeat (fzero, volume a) (length p) |} /\
    s = fmul (fdiv (volume a) (capacity a))
             (fdiv fone (fmul (fdiv (volume a) (capacity a))
                              (fdiv fone (time_frequency a)))).
Proof.
  unfold run_locals, py_div, divisors_ok.
  destruct (prices a) as [p|]; simpl; [|discriminate].
  destruct (feqb (capacity a) fzero); simpl; [discriminate|].
  destruct (feqb (time_frequency a) fzero); simpl; [discriminate|].
  destruct (feqb _ fzero); simpl; [discriminate|].
  intros E. injection E as <-.
  eexists; eexists. repeat split.
Qed.

End Frames.

(** Replace a frame obtained from [run_locals] by its explicit form. *)
Ltac open_frame H :=
  let p := fresh "p" in
  let s := fresh "s" in
  let Hp := fresh "Hprices" in
  let Hd := fresh "Hdiv" in
  let Hs := fresh "Hstep" in
  apply run_locals_inv in H;
  destruct H as (p & s & Hp & Hd & -> & Hs);
  cbn [call period charge_cost' discharge_cost' activation' mw_to_mwh
       steps_full_trip soc_step x0 charge_idx discharge_idx soc_idx
       charge_bounds discharge_bounds soc_bounds all_bounds] in *.

(** ** The objective and the constraint functions *)

Section ClosureFacts.

Context {F : Type} `{NF : Num F}.

(** The objective reads [x] only through its first [2 * period] entries. *)
Lemma getslice_charge_firstn (n : nat) (x : list F) :
  getslice x (0, n) = getslice (firstn (n * 2) x) (0, n).
Proof.
  unfold getslice; simpl. rewrite Nat.sub_0_r.
  rewrite firstn_firstn. f_equal. lia.
Qed.

Lemma getslice_discharge_firstn (n : nat) (x : list F) :
  getslice x (n, n * 2) = getslice (firstn (n * 2) x) (n, n * 2).
Proof.
  unfold getslice; simpl.
  rewrite skipn_firstn_comm, firstn_firstn. f_equal. lia.
Qed.

Lemma objective_reads_prefix (fr : frame) (x x' p : list F) :
  charge_idx fr = (0, period fr) ->
  discharge_idx fr = (period fr, period fr * 2) ->
  firstn (period fr * 2) x = firstn (period fr * 2) x' ->
  objective fr x p = objective fr x' p.
Proof.
  intros Hc Hd E. unfold objective. rewrite Hc, Hd.
  rewrite (getslice_charge_firstn (period fr) x),
          (getslice_discharge_firstn (period fr) x), E,
          <- (getslice_charge_firstn (period fr) x'),
          <- (getslice_discharge_firstn (period fr) x').
  reflexivity.
Qed.

Lemma firstn_agree (n : nat) (x x' : list F) :
  n <= length x -> n <= length x' ->
  (forall i, i < n -> nth i x fzero = nth i x' fzero) ->
  firstn n x = firstn n x'.
Proof.
  intros Hx Hx' E. apply (nth_ext _ _ fzero fzero).
  - rewrite !length_firstn. lia.
  - intros i Hi. rewrite length_firstn in Hi.
    rewrite !nth_firstn.
    destruct (i <? n) eqn:Hlt; [|reflexivity].
    apply E. apply Nat.ltb_lt in Hlt. exact Hlt.
Qed.

End ClosureFacts.

Section ClaimsGeneric.

Context {F : Type} `{NF : Num F}.

Lemma length_getslice_in {A : Type} (x : list A) (lo hi : nat) :
  lo <= hi -> hi <= length x -> length (getslice x (lo, hi)) = hi - lo.
Proof. intros H1 H2. rewrite length_getslice. lia. Qed.

Local Ltac len_simpl :=
  repeat first [ rewrite length_zip_with | rewrite length_scale
               | rewrite length_getslice_in by lia | rewrite length_from1
               | rewrite length_upto_last ];
  rewrite ?length_np_full, ?Nat.min_id;
  try lia.

(** C4.  For a decision vector [x] of length [3 * period] and a price
    vector [p] of length [period], the objective returns the sum over
    [i] of [charge[i] * mw_to_mwh * efficiency * (p[i] + charge_cost[i])]
    minus the sum over [i] of
    [discharge[i] * mw_to_mwh * (p[i] - discharge_cost[i] - activation[i])],
    with [charge = x[0:period]] and [discharge = x[period:2*period]];
    the discharge term carries no efficiency factor. *)
Theorem objective_value (a : params) (fr : frame) (x p : list F) :
  run_locals a = Ok fr ->
  length x = 3 * period fr ->
  length p = period fr ->
  objective fr x p =
  Ok (fsub
        (sigma (period fr) (fun i =>
           fmul (fmul (fmul (charge_at (period fr) x i) (mw_to_mwh fr)) (efficiency a))
                (fadd (nth i p fzero) (nth i (charge_cost' fr) fzero))))
        (sigma (period fr) (fun i =>
           fmul (fmul (discharge_at (period fr) x i) (mw_to_mwh fr))
                (fsub (fsub (nth i p fzero) (nth i (discharge_cost' fr) fzero))
                      (nth i (activation' fr) fzero))))).
Proof.
  intros H Hx Hp. open_frame H.
  remember (length p0) as n eqn:Hn.
  unfold objective; cbn [call charge_idx discharge_idx charge_cost'
    discharge_cost' activation' mw_to_mwh efficiency].
  rewrite (broadcast_same fadd p (np_full n (charge_cost a))) by len_simpl.
  cbn [bind].
  rewrite broadcast_same by len_simpl. cbn [bind].
  rewrite (broadcast_same fsub p) by len_simpl. cbn [bind].
  rewrite (broadcast_same fsub) by len_simpl. cbn [bind].
  rewrite broadcast_same by len_simpl. cbn [bind].
  do 2 f_equal.
  - rewrite sum_sigma.
    replace (length _) with n by (len_simpl).
    apply sigma_ext. intros i Hi.
    rewrite nth_zip_with by len_simpl.
    rewrite !nth_scale by len_simpl.
    rewrite nth_zip_with by len_simpl.
    rewrite nth_getslice by lia.
    reflexivity.
  - rewrite sum_sigma.
    replace (length _) with n by (len_simpl).
    apply sigma_ext. intros i Hi.
    rewrite nth_zip_with by len_simpl.
    rewrite !nth_scale by len_simpl.
    rewrite !nth_zip_with by len_simpl.
    rewrite nth_getslice by lia.
    reflexivity.
Qed.


(** C3.  For a decision vector [x] of length [3 * period], [soc_change]
    returns a residual vector of length [period - 1], one entry for each
    transition [i = 0 .. period - 2], and entry [i] is
    [soc[i+1] - soc[i] - charge[i] * efficiency * soc_step[i]
     + discharge[i] * soc_step[i]].  No entry exists for index
    [period - 1].  The statement holds for every [period]; the claim
    asks for [period >= 2]. *)
Theorem soc_change_residuals (a : params) (fr : frame) (x : list F) :
  run_locals a = Ok fr ->
  length x = 3 * period fr ->
  exists r,
    soc_change fr x = Ok r /\
    length r = period fr - 1 /\
    forall i, i < period fr - 1 ->
      nth i r fzero =
      fadd (fsub (fsub (soc_at (period fr) x (i + 1)) (soc_at (period fr) x i))
                 (fmul (fmul (charge_at (period fr) x i) (efficiency a))
                       (nth i (soc_step fr) fzero)))
           (fmul (discharge_at (period fr) x i) (nth i (soc_step fr) fzero)).
Proof.
  intros H Hx. open_frame H.
  remember (length p) as n eqn:Hn.
  unfold soc_change; cbn [call charge_idx discharge_idx soc_idx soc_step efficiency].
  rewrite (broadcast_same fsub (from1 _)) by len_simpl. cbn [bind].
  rewrite (broadcast_same fmul (scale _ _ _)) by len_simpl. cbn [bind].
  rewrite (broadcast_same fsub (zip_with _ _ _)) by len_simpl. cbn [bind].
  rewrite (broadcast_same fmul (upto_last _)) by len_simpl. cbn [bind].
  rewrite broadcast_same by len_simpl.
  eexists; split; [reflexivity|]. split; [len_simpl|].
  intros i Hi.
  rewrite !nth_zip_with by len_simpl.
  rewrite nth_scale by len_simpl.
  rewrite nth_from1.
  rewrite !nth_upto_last by len_simpl.
  rewrite !nth_getslice by lia.
  unfold soc_at, charge_at, discharge_at.
  replace (n * 2 + S i) with (2 * n + (i + 1)) by lia.
  replace (n * 2 + i) with (2 * n + i) by lia.
  reflexivity.
Qed.


(** C9.  Two decision vectors of length [3 * period] that agree on their
    first [2 * period] entries have the same objective value, whatever
    their soc segments and whatever the price vector. *)
Theorem objective_ignores_soc (a : params) (fr : frame) (x x' p : list F) :
  run_locals a = Ok fr ->
  length x = 3 * period fr ->
  length x' = 3 * period fr ->
  (forall i, i < 2 * period fr -> nth i x fzero = nth i x' fzero) ->
  objective fr x p = objective fr x' p.
Proof.
  intros H Hx Hx' E.
  apply objective_reads_prefix.
  - open_frame H. reflexivity.
  - open_frame H. reflexivity.
  - apply firstn_agree; try lia.
    intros i Hi. apply E. lia.
Qed.

(** How [run] ends before the solver, and when it reaches it. *)
Lemma run_reaches_solver (a : params) (p : list F) :
  prices a = Some p -> divisors_ok a = true ->
  exists fr, run_locals a = Ok fr /\
             run a = CallMinimize (minimize_call fr) (extract fr).
Proof.
  intros Hp Hd. destruct (run_locals_Ok a Hp Hd) as [fr Hfr].
  exists fr. split; [exact Hfr|]. unfold run. now rewrite Hfr.
Qed.

(** C5.  Once the solver has returned a result [sol], with whatever
    success flag, [run] returns the four-tuple of the charge slice, the
    discharge slice, the soc slice divided by [volume], and [sol] itself;
    it raises nothing. *)
Theorem run_returns_solver_result (a : params) (p : list F) :
  prices a = Some p -> divisors_ok a = true ->
  exists pb k,
    run a = CallMinimize pb k /\
    forall sol : OptimizeResult,
      k (Returned sol) =
      Return (getslice (sol_x sol) (0, length p),
              getslice (sol_x sol) (length p, length p * 2),
              map (fun u => fdiv u (volume a))
                  (getslice (sol_x sol) (length p * 2, length p * 3)),
              sol).
Proof.
  intros Hp Hd. destruct (run_reaches_solver a Hp Hd) as (fr & Hfr & Hrun).
  exists (minimize_call fr), (extract fr). split; [exact Hrun|].
  intros sol. open_frame Hfr.
  assert (p0 = p) as -> by congruence.
  reflexivity.
Qed.

(** C6.  The bounds handed to the solver are [3 * period] intervals:
    [period] times [(0, capacity)] for charge, [period] times
    [(0, capacity)] for discharge, [period] times [(0, volume)] for soc,
    in that order.  The statement holds for every [period]. *)
Theorem bounds_layout (a : params) (p : list F) :
  prices a = Some p -> divisors_ok a = true ->
  exists pb k,
    run a = CallMinimize pb k /\
    length (m_bounds pb) = 3 * length p /\
    forall i, i < length p ->
      nth i (m_bounds pb) (fzero, fzero) = (fzero, capacity a) /\
      nth (length p + i) (m_bounds pb) (fzero, fzero) = (fzero, capacity a) /\
      nth (2 * length p + i) (m_bounds pb) (fzero, fzero) = (fzero, volume a).
Proof.
  intros Hp Hd. destruct (run_reaches_solver a Hp Hd) as (fr & Hfr & Hrun).
  exists (minimize_call fr), (extract fr). split; [exact Hrun|].
  open_frame Hfr. assert (p0 = p) as -> by congruence.
  cbn [minimize_call m_bounds all_bounds].
  remember (length p) as n eqn:Hn.
  split.
  - rewrite !length_app, !repeat_length. lia.
  - intros i Hi. repeat split.
    + rewrite app_nth1 by (rewrite repeat_length; lia).
      now apply nth_repeat_lt.
    + rewrite app_nth2 by (rewrite repeat_length; lia).
      rewrite repeat_length.
      rewrite app_nth1 by (rewrite repeat_length; lia).
      apply nth_repeat_lt. lia.
    + rewrite app_nth2 by (rewrite repeat_length; lia).
      rewrite repeat_length.
      rewrite app_nth2 by (rewrite repeat_length; lia).
      rewrite repeat_length.
      apply nth_repeat_lt. lia.
Qed.

(** C7.  The initial guess handed to the solver has length [3 * period]
    and every entry is zero; two calls whose price series have the same
    length start from the same vector, whatever their other arguments. *)
Theorem initial_guess_zero (a a' : params) (p p' : list F) :
  prices a = Some p -> divisors_ok a = true ->
  prices a' = Some p' -> divisors_ok a' = true ->
  length p = length p' ->
  exists pb k pb' k',
    run a = CallMinimize pb k /\
    run a' = CallMinimize pb' k' /\
    length (m_x0 pb) = 3 * length p /\
    Forall (fun v => v = fzero) (m_x0 pb) /\
    m_x0 pb' = m_x0 pb.
Proof.
  intros Hp Hd Hp' Hd' E.
  destruct (run_reaches_solver a Hp Hd) as (fr & Hfr & Hrun).
  destruct (run_reaches_solver a' Hp' Hd') as (fr' & Hfr' & Hrun').
  exists (minimize_call fr), (extract fr), (minimize_call fr'), (extract fr').
  split; [exact Hrun|]. split; [exact Hrun'|].
  open_frame Hfr. open_frame Hfr'.
  assert (p0 = p) as -> by congruence.
  assert (p1 = p') as -> by congruence.
  cbn [minimize_call m_x0 x0]. unfold np_zeros.
  split; [rewrite repeat_length; lia|].
  split.
  - apply Forall_forall. intros v Hv. now apply repeat_spec in Hv.
  - now rewrite E.
Qed.

(** C2, as the code has it.  [run] checks none of its arguments.  With a
    price series supplied, the call ends before the solver exactly when
    one of the three scalar divisions meets a zero divisor, and then with
    [ZeroDivisionError]; in every other case the problem is built and
    handed to the solver. *)
Theorem run_rejects_only_zero_divisors (a : params) (p : list F) :
  prices a = Some p ->
  (divisors_ok a = false -> run a = Done (Raise ZeroDivisionError)) /\
  (divisors_ok a = true -> exists pb k, run a = CallMinimize pb k).
Proof.
  intros Hp. split; intros Hd.
  - unfold run. now rewrite (run_locals_Err a Hp Hd).
  - destruct (run_reaches_solver a Hp Hd) as (fr & _ & Hrun).
    now exists (minimize_call fr), (extract fr).
Qed.

(** C10.  [prices] defaults to [None], and a call whose [prices] is
    [None] ends with [TypeError] at [len(prices)]: no frame is built and
    the solver is not called. *)
Theorem run_without_prices :
  prices defaults = None /\
  forall a : params,
    prices a = None ->
    run_locals a = Err TypeError /\ run a = Done (Raise TypeError).
Proof.
  split; [reflexivity|].
  intros a Hp. pose proof (run_locals_None a Hp) as E.
  split; [exact E|]. unfold run. now rewrite E.
Qed.

End ClaimsGeneric.

(** ** Exact arithmetic *)

Section Rationals.

Open Scope Q_scope.




(** In exact arithmetic the three divisors are nonzero exactly when
    [capacity], [volume] and [time_frequency] are. *)
Lemma Qinv_zero (c : Q) : / c == 0 -> c == 0.
Proof.
  intros E. rewrite <- (Qinv_involutive c), E. reflexivity.
Qed.

Lemma divisors_ok_Q (a : @params Q) :
  divisors_ok a = true <->
  ~ capacity a == 0 /\ ~ volume a == 0 /\ ~ time_frequency a == 0.
Proof.
  unfold divisors_ok; cbn [feqb fzero fone fmul fdiv Q_Num].
  rewrite !andb_true_iff, !negb_true_iff.
  split.
  - intros [[Hc Ht] Hs].
    apply Qeq_bool_neq in Hc, Ht, Hs.
    repeat split; try assumption.
    intros Hv. apply Hs. rewrite Hv. unfold Qdiv. ring.
  - intros (Hc & Hv & Ht).
    repeat split.
    + destruct (Qeq_bool (capacity a) 0) eqn:E; [|reflexivity].
      apply Qeq_bool_eq in E. contradiction.
    + destruct (Qeq_bool (time_frequency a) 0) eqn:E; [|reflexivity].
      apply Qeq_bool_eq in E. contradiction.
    + destruct (Qeq_bool _ 0) eqn:E; [|reflexivity].
      apply Qeq_bool_eq in E. exfalso.
      unfold Qdiv in E. rewrite Qmult_1_l in E.
      apply Qmult_integral in E as [E|E].
      * apply Qmult_integral in E as [E|E]; [contradiction|].
        apply Qinv_zero in E. contradiction.
      * apply Qinv_zero in E. contradiction.
Qed.

(** C2 fails at a negative capacity: the call is invalid, a problem is
    built all the same and the solver is called with it. *)
Lemma negative_capacity_reaches_solver :
  invalid negative_capacity = true /\
  exists pb k, run negative_capacity = CallMinimize pb k.
Proof.
  split; [reflexivity|]. eexists; eexists; reflexivity.
Qed.

Lemma full_trip_cancels (c v t : Q) :
  0 < c -> 0 < v -> 0 < t ->
  (v / c) * (1 / ((v / c) * (1 / t))) == t.
Proof.
  intros Hc Hv Ht.
  assert (~ c == 0) by (intros E; rewrite E in Hc; now apply Qlt_irrefl in Hc).
  assert (~ v == 0) by (intros E; rewrite E in Hv; now apply Qlt_irrefl in Hv).
  assert (~ t == 0) by (intros E; rewrite E in Ht; now apply Qlt_irrefl in Ht).
  field. repeat split; assumption.
Qed.


End Rationals.

(** ** The endpoints of the returned soc series *)

Section Endpoints.

Open Scope Q_scope.

Lemma item_last_map {A B : Type} (f : A -> B) (v : list A) (u : A) :
  item_last v = Ok u -> item_last (map f v) = Ok (f u).
Proof.
  unfold item_last. rewrite length_map.
  destruct (nth_error v (length v - 1)) as [w|] eqn:E; [|discriminate].
  intros [= ->]. now rewrite (map_nth_error f _ _ E).
Qed.

Lemma Qminus_zero_eq (s i : Q) : Qeq_bool (s - i) 0 = true -> s == i.
Proof.
  intros E. apply Qeq_bool_eq in E.
  setoid_replace s with ((s - i) + i) by ring.
  rewrite E. ring.
Qed.

(** Where the start and end constraints are met, the returned series
    starts at [input_soc / volume] and ends at [final_soc / volume]. *)
Lemma soc_fraction_endpoints (a : @params Q) (fr : frame) (x : list Q) :
  run_locals a = Ok fr ->
  met (start_soc fr x) = true ->
  met (end_soc fr x) = true ->
  exists s0 sN,
    item0 (scale fdiv (getslice x (soc_idx fr)) (volume (call fr))) = Ok s0 /\
    item_last (scale fdiv (getslice x (soc_idx fr)) (volume (call fr))) = Ok sN /\
    s0 == input_soc a / volume a /\
    sN == final_soc a / volume a.
Proof.
  intros H Hs He. open_frame H.
  unfold start_soc, end_soc in *.
  cbn [soc_idx call input_soc final_soc] in *.
  remember (getslice x (length p * 2, length p * 3)%nat) as soc eqn:Hsoc.
  destruct (item0 soc) as [u|] eqn:E0; [|discriminate].
  destruct (item_last soc) as [w|] eqn:EN; [|discriminate].
  cbn [bind met feqb fsub fzero Q_Num] in Hs, He.
  apply Qminus_zero_eq in Hs, He.
  exists (u / volume a), (w / volume a). repeat split.
  - destruct soc as [|u' soc']; [discriminate|].
    injection E0 as ->. reflexivity.
  - unfold scale. now rewrite (item_last_map _ _ EN).
  - now rewrite Hs.
  - now rewrite He.
Qed.

(** C1 at a 2 MWh battery.  The vector [idle_x] meets every constraint of
    the problem built for [two_mwh], whose [input_soc] and [final_soc]
    are 1/2; returned by the solver, it yields a soc series that starts
    and ends at 1/4. *)
Theorem soc_fraction_at_two_mwh :
  exists fr,
    run_locals two_mwh = Ok fr /\
    met (start_soc fr idle_x) = true /\
    met (end_soc fr idle_x) = true /\
    met (no_final_discharge fr idle_x) = true /\
    met_all (soc_change fr idle_x) = true /\
    exec (answering (idle_sol true)) (run two_mwh) =
      Return ([0; 0; 0; 0], [0; 0; 0; 0],
              [1 # 4; 1 # 4; 1 # 4; 1 # 4], idle_sol true) /\
    ~ (1 # 4 == input_soc two_mwh) /\
    ~ (1 # 4 == final_soc two_mwh).
Proof.
  eexists. split; [reflexivity|].
  repeat split; try (vm_compute; reflexivity); intros E; discriminate E.
Qed.

End Endpoints.

(** ** Binary64 *)

Section Binary64.

Open Scope float_scope.


(** The literals of the signature, as the parser rounds them. *)
Example defaults_binary64 :
  efficiency (@defaults float _) = 0x1.ccccccccccccdp-1 /\
  input_soc (@defaults float _) = 0.5 /\
  charge_cost (@defaults float _) = 5.
Proof. repeat split. Qed.

(** At the defaults of the signature the cancellation is exact. *)
Example soc_step_exact_at_defaults :
  let a := {| capacity := capacity defaults; volume := volume defaults;
              efficiency := efficiency defaults; input_soc := input_soc defaults;
              prices := Some [10; 50]; charge_cost := charge_cost defaults;
              discharge_cost := discharge_cost defaults;
              activation := activation defaults;
              time_frequency := time_frequency defaults;
              final_soc := final_soc defaults |} in
  exists fr, run_locals a = Ok fr /\ soc_step fr = [0.5; 0.5].
Proof.
  eexists. split; [reflexivity|]. vm_compute. reflexivity.
Qed.

End Binary64.

(** ** The statements at the sample calls *)

Section Witnesses.

Open Scope Q_scope.

Lemma soc_change_residuals_two_mwh :
  exists fr,
    run_locals two_mwh = Ok fr /\
    length idle_x = (3 * period fr)%nat /\
    exists r,
      soc_change fr idle_x = Ok r /\
      length r = (period fr - 1)%nat /\
      forall i, (i < period fr - 1)%nat ->
        nth i r fzero =
        fadd (fsub (fsub (soc_at (period fr) idle_x (i + 1))
                         (soc_at (period fr) idle_x i))
                   (fmul (fmul (charge_at (period fr) idle_x i) (efficiency two_mwh))
                         (nth i (soc_step fr) fzero)))
             (fmul (discharge_at (period fr) idle_x i) (nth i (soc_step fr) fzero)).
Proof.
  eexists. split; [reflexivity|]. split; [reflexivity|].
  apply (soc_change_residuals two_mwh); reflexivity.
Defined.

Lemma objective_value_two_mwh :
  exists fr,
    run_locals two_mwh = Ok fr /\
    length idle_x = (3 * period fr)%nat /\
    length [10; 50; 10; 50] = period fr /\
    objective fr idle_x [10; 50; 10; 50] =
    Ok (fsub
          (sigma (period fr) (fun i =>
             fmul (fmul (fmul (charge_at (period fr) idle_x i) (mw_to_mwh fr))
                        (efficiency two_mwh))
                  (fadd (nth i [10; 50; 10; 50] fzero) (nth i (charge_cost' fr) fzero))))
          (sigma (period fr) (fun i =>
             fmul (fmul (discharge_at (period fr) idle_x i) (mw_to_mwh fr))
                  (fsub (fsub (nth i [10; 50; 10; 50] fzero)
                              (nth i (discharge_cost' fr) fzero))
                        (nth i (activation' fr) fzero))))).
Proof.
  eexists. split; [reflexivity|]. split; [reflexivity|]. split; [reflexivity|].
  apply (objective_value two_mwh); reflexivity.
Defined.

Lemma objective_ignores_soc_two_mwh :
  exists fr,
    run_locals two_mwh = Ok fr /\
    length idle_x = (3 * period fr)%nat /\
    length idle_x' = (3 * period fr)%nat /\
    getslice idle_x (soc_idx fr) <> getslice idle_x' (soc_idx fr) /\
    objective fr idle_x [10; 50; 10; 50] = objective fr idle_x' [10; 50; 10; 50].
Proof.
  eexists. split; [reflexivity|]. split; [reflexivity|]. split; [reflexivity|].
  split; [intros E; discriminate E|].
  apply (objective_ignores_soc two_mwh); try reflexivity.
  intros i Hi. cbn [period] in Hi.
  do 8 (destruct i as [|i]; [reflexivity|]).
  exfalso. cbn in Hi. lia.
Defined.

Lemma run_returns_solver_result_two_mwh :
  exists pb k,
    run two_mwh = CallMinimize pb k /\
    forall sol : OptimizeResult,
      k (Returned sol) =
      Return (getslice (sol_x sol) (0, 4)%nat,
              getslice (sol_x sol) (4, 8)%nat,
              map (fun u => fdiv u 2) (getslice (sol_x sol) (8, 12)%nat),
              sol).
Proof.
  exact (run_returns_solver_result two_mwh eq_refl eq_refl).
Defined.

Lemma bounds_layout_two_mwh :
  exists pb k,
    run two_mwh = CallMinimize pb k /\
    length (m_bounds pb) = 12%nat /\
    forall i, (i < 4)%nat ->
      nth i (m_bounds pb) (fzero, fzero) = (0, 1) /\
      nth (4 + i) (m_bounds pb) (fzero, fzero) = (0, 1) /\
      nth (2 * 4 + i) (m_bounds pb) (fzero, fzero) = (0, 2).
Proof.
  exact (bounds_layout two_mwh eq_refl eq_refl).
Defined.

Lemma initial_guess_zero_two_calls :
  exists pb k pb' k',
    run two_mwh = CallMinimize pb k /\
    run ten_mwh = CallMinimize pb' k' /\
    length (m_x0 pb) = 12%nat /\
    Forall (fun v => v = 0) (m_x0 pb) /\
    m_x0 pb' = m_x0 pb.
Proof.
  exact (initial_guess_zero two_mwh ten_mwh eq_refl eq_refl eq_refl eq_refl eq_refl).
Defined.

Lemma run_rejects_only_zero_divisors_samples :
  (invalid negative_capacity = true /\
   divisors_ok negative_capacity = true /\
   exists pb k, run negative_capacity = CallMinimize pb k) /\
  (divisors_ok zero_capacity = false /\
   run zero_capacity = Done (Raise ZeroDivisionError)).
Proof.
  split.
  - split; [reflexivity|]. split; [reflexivity|].
    exact (proj2 (run_rejects_only_zero_divisors negative_capacity eq_refl) eq_refl).
  - split; [reflexivity|].
    exact (proj1 (run_rejects_only_zero_divisors zero_capacity eq_refl) eq_refl).
Defined.


Lemma run_without_prices_defaults :
  prices (@defaults Q _) = None /\
  run_locals (@defaults Q _) = Err TypeError /\
  run (@defaults Q _) = Done (Raise TypeError).
Proof.
  split; [reflexivity|].
  exact (proj2 run_without_prices defaults eq_refl).
Defined.

(** The other branch of the solver's reply, and a schedule that trades. *)

Example run_returns_unconverged_result :
  exec (answering (idle_sol false)) (run two_mwh) =
  Return ([0; 0; 0; 0], [0; 0; 0; 0], [1 # 4; 1 # 4; 1 # 4; 1 # 4], idle_sol false).
Proof. reflexivity. Qed.

Example run_passes_solver_exception :
  exec (fun _ => Threw ValueError) (run negative_capacity) = Raise ValueError.
Proof. reflexivity. Qed.

Example objective_trade_x :
  exists fr, run_locals two_mwh = Ok fr /\
    match objective fr trade_x [10; 50; 10; 50] with
    | Ok v => Qred v = - (13 # 2)
    | Err _ => False
    end.
Proof. eexists. split; [reflexivity|]. vm_compute. reflexivity. Qed.

Example soc_change_trade_x :
  exists fr, run_locals two_mwh = Ok fr /\
    match soc_change fr trade_x with
    | Ok r => map Qred r = [0; 0; 0]
    | Err _ => False
    end.
Proof. eexists. split; [reflexivity|]. vm_compute. reflexivity. Qed.

Example objective_wrong_price_length :
  exists fr, run_locals two_mwh = Ok fr /\
    objective fr trade_x [10; 50; 10] = Err ValueError.
Proof. eexists. split; [reflexivity|]. vm_compute. reflexivity. Qed.

Example start_soc_short_vector :
  exists fr, run_locals two_mwh = Ok fr /\
    start_soc fr [0; 0; 0; 0; 0; 0; 0; 0] = Err IndexError.
Proof. eexists. split; [reflexivity|]. vm_compute. reflexivity. Qed.

End Witnesses.

(** ** More on the constraint functions *)

Section ConstraintFacts.

Context {F : Type} `{NF : Num F}.

Local Ltac lens :=
  repeat first [ rewrite length_zip_with | rewrite length_scale
               | rewrite length_getslice_in by lia | rewrite length_from1
               | rewrite length_upto_last ];
  rewrite ?length_np_full, ?Nat.min_id;
  try lia.

Lemma item0_nth {A : Type} (v : list A) (d : A) :
  0 < length v -> item0 v = Ok (nth 0 v d).
Proof. destruct v; simpl; [lia|reflexivity]. Qed.

Lemma item_last_nth {A : Type} (v : list A) (d : A) :
  0 < length v -> item_last v = Ok (nth (length v - 1) v d).
Proof.
  intros Hv. unfold item_last.
  rewrite (nth_error_nth' v d) by lia. reflexivity.
Qed.

Lemma item0_nil {A : Type} (v : list A) : length v = 0 -> item0 v = Err IndexError.
Proof. destruct v; simpl; [reflexivity|discriminate]. Qed.

Lemma item_last_nil {A : Type} (v : list A) :
  length v = 0 -> item_last v = Err IndexError.
Proof. destruct v; simpl; [reflexivity|discriminate]. Qed.

Lemma broadcast_mismatch (op : F -> F -> F) (a b : list F) :
  length a <> length b -> length a <> 1 -> length b <> 1 ->
  broadcast op a b = Err ValueError.
Proof.
  intros Hab Ha Hb. unfold broadcast.
  apply Nat.eqb_neq in Hab. rewrite Hab.
  destruct a as [|u [|u' a]]; destruct b as [|v [|v' b]];
    simpl in *; try reflexivity; try lia.
Qed.

Lemma nth_map_seq (f : nat -> F) (m i : nat) (d : F) :
  i < m -> nth i (map f (seq 0 m)) d = f i.
Proof.
  intros Hi.
  rewrite (nth_indep _ d (f 0)) by (rewrite length_map, length_seq; exact Hi).
  rewrite (map_nth f (seq 0 m) 0 i). now rewrite seq_nth.
Qed.

(** The residuals of [soc_change] as one list. *)
Lemma soc_change_closed (a : params) (fr : frame) (x : list F) :
  run_locals a = Ok fr ->
  length x = 3 * period fr ->
  soc_change fr x = Ok (map (transition fr x) (seq 0 (period fr - 1))).
Proof.
  intros H Hx. open_frame H.
  remember (length p) as n eqn:Hn.
  unfold soc_change, transition;
    cbn [call period charge_idx discharge_idx soc_idx soc_step efficiency].
  rewrite (broadcast_same fsub (from1 _)) by lens. cbn [bind].
  rewrite (broadcast_same fmul (scale _ _ _)) by lens. cbn [bind].
  rewrite (broadcast_same fsub (zip_with _ _ _)) by lens. cbn [bind].
  rewrite (broadcast_same fmul (upto_last _)) by lens. cbn [bind].
  rewrite broadcast_same by lens.
  f_equal. apply (nth_ext _ _ fzero fzero).
  - rewrite length_map, length_seq. lens.
  - intros i Hi. assert (i < n - 1) as Hi' by (revert Hi; lens).
    rewrite nth_map_seq by exact Hi'.
    rewrite !nth_zip_with by lens.
    rewrite nth_scale by lens.
    rewrite nth_from1.
    rewrite !nth_upto_last by lens.
    rewrite !nth_getslice by lia.
    unfold soc_at, charge_at, discharge_at.
    replace (n * 2 + S i) with (2 * n + (i + 1)) by lia.
    replace (n * 2 + i) with (2 * n + i) by lia.
    reflexivity.
Qed.

Lemma start_soc_closed (a : params) (fr : frame) (x : list F) :
  run_locals a = Ok fr ->
  1 <= period fr ->
  length x = 3 * period fr ->
  start_soc fr x = Ok (fsub (soc_at (period fr) x 0) (input_soc a)).
Proof.
  intros H Hn Hx. open_frame H.
  remember (length p) as n eqn:En.
  unfold start_soc, soc_at; cbn [call period soc_idx input_soc].
  rewrite (item0_nth _ fzero) by lens. cbn [bind].
  rewrite nth_getslice by lia.
  replace (n * 2 + 0) with (2 * n + 0) by lia. reflexivity.
Qed.

Lemma end_soc_closed (a : params) (fr : frame) (x : list F) :
  run_locals a = Ok fr ->
  1 <= period fr ->
  length x = 3 * period fr ->
  end_soc fr x = Ok (fsub (soc_at (period fr) x (period fr - 1)) (final_soc a)).
Proof.
  intros H Hn Hx. open_frame H.
  remember (length p) as n eqn:En.
  unfold end_soc, soc_at; cbn [call period soc_idx final_soc].
  rewrite (item_last_nth _ fzero) by lens. cbn [bind].
  rewrite length_getslice_in by lia.
  rewrite nth_getslice by lia.
  replace (n * 2 + (n * 3 - n * 2 - 1)) with (2 * n + (n - 1)) by lia.
  reflexivity.
Qed.

Lemma no_final_discharge_closed (a : params) (fr : frame) (x : list F) :
  run_locals a = Ok fr ->
  1 <= period fr ->
  length x = 3 * period fr ->
  no_final_discharge fr x = Ok (discharge_at (period fr) x (period fr - 1)).
Proof.
  intros H Hn Hx. open_frame H.
  remember (length p) as n eqn:En.
  unfold no_final_discharge, discharge_at; cbn [period discharge_idx].
  rewrite (item_last_nth _ fzero) by lens.
  rewrite length_getslice_in by lia.
  rewrite nth_getslice by lia.
  replace (n + (n * 2 - n - 1)) with (n + (n - 1)) by lia.
  reflexivity.
Qed.

(** X1.  For a decision vector of length [3 * period] with at least one
    period, the start constraint returns [soc[0] - input_soc], the end
    constraint [soc[period - 1] - final_soc], and the last constraint
    [discharge[period - 1]]. *)
Theorem boundary_residuals (a : params) (fr : frame) (x : list F) :
  run_locals a = Ok fr ->
  1 <= period fr ->
  length x = 3 * period fr ->
  start_soc fr x = Ok (fsub (soc_at (period fr) x 0) (input_soc a)) /\
  end_soc fr x = Ok (fsub (soc_at (period fr) x (period fr - 1)) (final_soc a)) /\
  no_final_discharge fr x = Ok (discharge_at (period fr) x (period fr - 1)).
Proof.
  intros H Hn Hx. split; [|split].
  - now apply start_soc_closed.
  - now apply end_soc_closed.
  - now apply (no_final_discharge_closed a).
Qed.

(** X2.  An empty price series is not refused: the solver is called with
    an empty initial guess and no bounds, the recurrence constraint
    returns the empty array and the objective the value [0 - 0], and the
    other three constraints raise [IndexError] at every vector. *)
Theorem empty_price_series (a : params) :
  prices a = Some [] -> divisors_ok a = true ->
  exists fr,
    run_locals a = Ok fr /\
    run a = CallMinimize (minimize_call fr) (extract fr) /\
    m_x0 (minimize_call fr) = [] /\
    m_bounds (minimize_call fr) = [] /\
    forall x,
      objective fr x [] = Ok (fsub fzero fzero) /\
      soc_change fr x = Ok [] /\
      start_soc fr x = Err IndexError /\
      end_soc fr x = Err IndexError /\
      no_final_discharge fr x = Err IndexError.
Proof.
  intros Hp Hd. destruct (run_reaches_solver a Hp Hd) as (fr & Hfr & Hrun).
  exists fr. split; [exact Hfr|]. split; [exact Hrun|].
  open_frame Hfr. assert (p = []) as -> by congruence.
  repeat split.
Qed.

(** X3.  The recurrence constraint reads neither the charge nor the
    discharge of the last period: two vectors of length [3 * period] that
    differ only at the indices [period - 1] and [2 * period - 1] have the
    same residuals. *)
Theorem soc_change_ignores_last_period (a : params) (fr : frame) (x x' : list F) :
  run_locals a = Ok fr ->
  length x = 3 * period fr ->
  length x' = 3 * period fr ->
  (forall i, i <> period fr - 1 -> i <> 2 * period fr - 1 ->
             nth i x fzero = nth i x' fzero) ->
  soc_change fr x = soc_change fr x'.
Proof.
  intros H Hx Hx' E.
  rewrite (soc_change_closed a x H Hx), (soc_change_closed a x' H Hx').
  f_equal. apply map_ext_in. intros i Hi. apply in_seq in Hi.
  unfold transition, soc_at, charge_at, discharge_at.
  rewrite !(E (2 * period fr + (i + 1))), !(E (2 * period fr + i)),
          !(E (period fr + i)), !(E i) by lia.
  reflexivity.
Qed.

(** X4.  A price vector whose length is neither [period] nor 1 makes the
    objective raise [ValueError] at [p + charge_cost], whatever the
    decision vector (for [period] other than 1). *)
Theorem objective_price_length_mismatch (a : params) (fr : frame) (x p : list F) :
  run_locals a = Ok fr ->
  length p <> period fr -> length p <> 1 -> period fr <> 1 ->
  objective fr x p = Err ValueError.
Proof.
  intros H Hp H1 Hn. open_frame H.
  unfold objective; cbn [call charge_idx discharge_idx charge_cost'].
  rewrite broadcast_mismatch; [reflexivity | | exact H1 | ];
    rewrite length_np_full; assumption.
Qed.

Lemma sigma_S (k : nat) (f : nat -> F) :
  sigma (S k) f = fadd (sigma k f) (f k).
Proof.
  unfold sigma. rewrite seq_S, fold_left_app. reflexivity.
Qed.

(** The two sums of the objective, term by term. *)
Lemma objective_closed (a : params) (fr : frame) (x p : list F) :
  run_locals a = Ok fr ->
  length x = 3 * period fr ->
  length p = period fr ->
  objective fr x p =
  Ok (fsub (sum (map (buy fr x p) (seq 0 (period fr))))
           (sum (map (sell fr x p) (seq 0 (period fr))))).
Proof.
  intros H Hx Hp. open_frame H.
  remember (length p0) as n eqn:Hn.
  unfold objective, buy, sell; cbn [call period charge_idx discharge_idx charge_cost'
    discharge_cost' activation' mw_to_mwh efficiency].
  rewrite (broadcast_same fadd p (np_full n (charge_cost a))) by lens.
  cbn [bind].
  rewrite broadcast_same by lens. cbn [bind].
  rewrite (broadcast_same fsub p) by lens. cbn [bind].
  rewrite (broadcast_same fsub) by lens. cbn [bind].
  rewrite broadcast_same by lens. cbn [bind].
  do 3 f_equal.
  - apply (nth_ext _ _ fzero fzero).
    + rewrite length_map, length_seq. lens.
    + intros i Hi. assert (i < n) as Hi' by (revert Hi; lens).
      rewrite nth_map_seq by exact Hi'.
      rewrite nth_zip_with by lens.
      rewrite !nth_scale by lens.
      rewrite nth_zip_with by lens.
      rewrite nth_getslice by lia.
      reflexivity.
  - apply (nth_ext _ _ fzero fzero).
    + rewrite length_map, length_seq. lens.
    + intros i Hi. assert (i < n) as Hi' by (revert Hi; lens).
      rewrite nth_map_seq by exact Hi'.
      rewrite nth_zip_with by lens.
      rewrite !nth_scale by lens.
      rewrite !nth_zip_with by lens.
      rewrite nth_getslice by lia.
      reflexivity.
Qed.

End ConstraintFacts.

(** ** Feasible points, in exact arithmetic *)

Section Feasibility.

Open Scope Q_scope.

Lemma met_Q (v : Q) : met (Ok v) = true <-> v == 0.
Proof. unfold met; cbn [feqb fzero Q_Num]. apply Qeq_bool_iff. Qed.

Lemma fold_left_Qplus_zero (l : list Q) (z : Q) :
  Forall (fun v => v == 0) l -> fold_left Qplus l z == z.
Proof.
  intros H. revert z. induction H as [|v l Hv _ IH]; intros z; simpl.
  - reflexivity.
  - rewrite IH, Hv. ring.
Qed.

Lemma sum_map_zero (f : nat -> Q) (l : list nat) :
  (forall i, In i l -> f i == 0) -> sum (map f l) == 0.
Proof.
  intros H. unfold sum; cbn [fadd fzero Q_Num].
  apply fold_left_Qplus_zero. apply Forall_forall.
  intros v Hv. apply in_map_iff in Hv as (i & <- & Hi). now apply H.
Qed.

Lemma sigma_Qeq (k : nat) (f g : nat -> Q) :
  (forall i, (i < k)%nat -> f i == g i) -> sigma k f == sigma k g.
Proof.
  induction k as [|k IH]; intros E.
  - reflexivity.
  - rewrite !sigma_S. cbn [fadd Q_Num].
    rewrite IH by (intros i Hi; apply E; lia).
    rewrite (E k) by lia. reflexivity.
Qed.

Lemma nth_np_zeros (m i : nat) : nth i (np_zeros (F:=Q) m) 0 = 0.
Proof. unfold np_zeros; cbn [fzero Q_Num]. apply nth_repeat. Qed.

(** Where the recurrence constraint is met, each transition adds the
    energy charged and removes the energy discharged. *)
Lemma recurrence_step (a : @params Q) (fr : frame) (x : list Q) (i : nat) :
  run_locals a = Ok fr ->
  length x = (3 * period fr)%nat ->
  met_all (soc_change fr x) = true ->
  (i < period fr - 1)%nat ->
  soc_at (period fr) x (i + 1) ==
  soc_at (period fr) x i
  + (charge_at (period fr) x i * efficiency a * nth i (soc_step fr) 0
     - discharge_at (period fr) x i * nth i (soc_step fr) 0).
Proof.
  intros H Hx Hm Hi.
  rewrite (soc_change_closed a x H Hx) in Hm. unfold met_all in Hm.
  rewrite forallb_forall in Hm.
  assert (transition fr x i == 0) as E.
  { apply Qeq_bool_iff. apply (Hm (transition fr x i)).
    apply in_map. apply in_seq. lia. }
  unfold transition in E; cbn [fadd fsub fmul fzero Q_Num] in E.
  assert (call fr = a) as Ea by (open_frame H; reflexivity).
  rewrite Ea in E.
  setoid_replace (soc_at (period fr) x (i + 1))
    with ((soc_at (period fr) x (i + 1) - soc_at (period fr) x i
           - charge_at (period fr) x i * efficiency a * nth i (soc_step fr) 0
           + discharge_at (period fr) x i * nth i (soc_step fr) 0)
          + (soc_at (period fr) x i
             + (charge_at (period fr) x i * efficiency a * nth i (soc_step fr) 0
                - discharge_at (period fr) x i * nth i (soc_step fr) 0)))
    by ring.
  rewrite E. ring.
Qed.

Lemma soc_telescopes (a : @params Q) (fr : frame) (x : list Q) (k : nat) :
  run_locals a = Ok fr ->
  length x = (3 * period fr)%nat ->
  met_all (soc_change fr x) = true ->
  (k < period fr)%nat ->
  soc_at (period fr) x k ==
  soc_at (period fr) x 0
  + sigma k (fun i =>
      charge_at (period fr) x i * efficiency a * nth i (soc_step fr) 0
      - discharge_at (period fr) x i * nth i (soc_step fr) 0).
Proof.
  intros H Hx Hm. induction k as [|k IH]; intros Hk.
  - unfold sigma; cbn [seq fold_left fzero Q_Num]. ring.
  - replace (S k) with (k + 1)%nat at 1 by lia.
    rewrite (recurrence_step a x H Hx Hm) by lia.
    rewrite IH by lia. rewrite sigma_S. cbn [fadd Q_Num]. ring.
Qed.

Lemma soc_step_entry (a : @params Q) (fr : frame) (i : nat) :
  run_locals a = Ok fr ->
  0 < capacity a -> 0 < volume a -> 0 < time_frequency a ->
  (i < period fr)%nat ->
  nth i (soc_step fr) 0 == time_frequency a.
Proof.
  intros H Hc Hv Ht Hi. open_frame H.
  assert (nth i (np_full (length p) s) 0 = s) as ->
    by (change (nth i (np_full (length p) s) (@fzero Q Q_Num) = s);
        apply nth_np_full; exact Hi).
  subst s.
  cbn [fmul fdiv fone Q_Num]. now apply full_trip_cancels.
Qed.

(** X5.  With positive capacity, volume and time frequency, a vector
    that meets the recurrence constraint has its soc trajectory fixed by
    [soc[0]] and the schedule: [soc[k]] is [soc[0]] plus the sum over
    [i < k] of [charge[i] * efficiency * time_frequency
    - discharge[i] * time_frequency]. *)
Theorem soc_trajectory (a : @params Q) (fr : frame) (x : list Q) (k : nat) :
  run_locals a = Ok fr ->
  0 < capacity a -> 0 < volume a -> 0 < time_frequency a ->
  length x = (3 * period fr)%nat ->
  met_all (soc_change fr x) = true ->
  (k < period fr)%nat ->
  soc_at (period fr) x k ==
  soc_at (period fr) x 0
  + sigma k (fun i =>
      charge_at (period fr) x i * efficiency a * time_frequency a
      - discharge_at (period fr) x i * time_frequency a).
Proof.
  intros H Hc Hv Ht Hx Hm Hk.
  rewrite (soc_telescopes a x H Hx Hm Hk).
  apply Qplus_comp; [reflexivity|].
  apply sigma_Qeq. intros i Hi.
  rewrite (soc_step_entry a H Hc Hv Ht) by lia. reflexivity.
Qed.

(** X6.  Energy balance of a feasible point: where the recurrence, the
    start and the end constraints are all met, [final_soc - input_soc]
    is the sum over the transitions [i < period - 1] of
    [charge[i] * efficiency * time_frequency - discharge[i] * time_frequency]. *)
Theorem energy_balance (a : @params Q) (fr : frame) (x : list Q) :
  run_locals a = Ok fr ->
  0 < capacity a -> 0 < volume a -> 0 < time_frequency a ->
  (1 <= period fr)%nat ->
  length x = (3 * period fr)%nat ->
  met_all (soc_change fr x) = true ->
  met (start_soc fr x) = true ->
  met (end_soc fr x) = true ->
  final_soc a - input_soc a ==
  sigma (period fr - 1) (fun i =>
    charge_at (period fr) x i * efficiency a * time_frequency a
    - discharge_at (period fr) x i * time_frequency a).
Proof.
  intros H Hc Hv Ht Hn Hx Hm Hs He.
  rewrite (start_soc_closed a x H Hn Hx) in Hs.
  rewrite (end_soc_closed a x H Hn Hx) in He.
  apply met_Q in Hs, He. cbn [fsub Q_Num] in Hs, He.
  assert (period fr - 1 < period fr)%nat as Hk by lia.
  pose proof (soc_telescopes a x H Hx Hm Hk) as T.
  setoid_replace (final_soc a) with (soc_at (period fr) x (period fr - 1))
    by (rewrite <- (Qplus_0_l (final_soc a)), <- He; ring).
  setoid_replace (input_soc a) with (soc_at (period fr) x 0)
    by (rewrite <- (Qplus_0_l (input_soc a)), <- Hs; ring).
  rewrite T.
  setoid_replace (soc_at (period fr) x 0
     + sigma (period fr - 1) (fun i =>
         charge_at (period fr) x i * efficiency a * nth i (soc_step fr) 0
         - discharge_at (period fr) x i * nth i (soc_step fr) 0)
     - soc_at (period fr) x 0)
    with (sigma (period fr - 1) (fun i =>
         charge_at (period fr) x i * efficiency a * nth i (soc_step fr) 0
         - discharge_at (period fr) x i * nth i (soc_step fr) 0)) by ring.
  apply sigma_Qeq. intros i Hi.
  rewrite (soc_step_entry a H Hc Hv Ht) by lia. reflexivity.
Qed.

End Feasibility.

(** ** The initial guess, the bounds and short horizons *)

Section StartingPoint.

Open Scope Q_scope.

Lemma sum_map_seq (f : nat -> Q) (n : nat) : sum (map f (seq 0 n)) = sigma n f.
Proof. unfold sum, sigma. apply fold_left_fadd_map. Qed.

Lemma x0_shape (a : @params Q) (fr : frame) :
  run_locals a = Ok fr ->
  length (x0 fr) = (3 * period fr)%nat /\ forall i, nth i (x0 fr) 0 = 0.
Proof.
  intros H. open_frame H. split.
  - unfold np_zeros. rewrite repeat_length. lia.
  - intros i. apply nth_np_zeros.
Qed.

(** X7.  The all-zero initial guess costs nothing and meets the
    recurrence and the no-final-discharge constraints; it meets the start
    constraint exactly when [input_soc] is zero and the end constraint
    exactly when [final_soc] is zero. *)
Theorem initial_guess_feasibility (a : @params Q) (p : list Q) :
  prices a = Some p -> divisors_ok a = true -> (1 <= length p)%nat ->
  exists fr,
    run_locals a = Ok fr /\
    (exists v, objective fr (x0 fr) p = Ok v /\ v == 0) /\
    met_all (soc_change fr (x0 fr)) = true /\
    met (no_final_discharge fr (x0 fr)) = true /\
    (met (start_soc fr (x0 fr)) = true <-> input_soc a == 0) /\
    (met (end_soc fr (x0 fr)) = true <-> final_soc a == 0).
Proof.
  intros Hp Hd Hn. destruct (run_locals_Ok a Hp Hd) as [fr H].
  exists fr. split; [exact H|].
  destruct (x0_shape a H) as [Hlen Hz].
  assert (period fr = length p) as Hper
    by (pose proof H as H'; open_frame H'; congruence).
  assert (1 <= period fr)%nat as Hn' by lia.
  split; [|split; [|split; [|split]]].
  - rewrite (objective_closed a (x0 fr) p H Hlen) by congruence.
    eexists. split; [reflexivity|]. cbn [fsub Q_Num].
    rewrite !sum_map_zero; [reflexivity| |].
    + intros i _. unfold sell, discharge_at. cbn [fmul fsub fzero Q_Num].
      rewrite Hz. ring.
    + intros i _. unfold buy, charge_at. cbn [fmul fadd fzero Q_Num].
      rewrite Hz. ring.
  - rewrite (soc_change_closed a (x0 fr) H Hlen). unfold met_all.
    apply forallb_forall. intros v Hv.
    apply in_map_iff in Hv as (i & <- & _).
    cbn [feqb fzero Q_Num]. apply Qeq_bool_iff.
    unfold transition, soc_at, charge_at, discharge_at.
    cbn [fadd fsub fmul fzero Q_Num]. rewrite !Hz. ring.
  - rewrite (no_final_discharge_closed a (x0 fr) H Hn' Hlen).
    apply met_Q. unfold discharge_at. cbn [fzero Q_Num]. now rewrite Hz.
  - rewrite (start_soc_closed a (x0 fr) H Hn' Hlen), met_Q.
    unfold soc_at. cbn [fsub fzero Q_Num]. rewrite Hz.
    split; intros E.
    + setoid_replace (input_soc a) with (- (0 - input_soc a)) by ring.
      rewrite E. reflexivity.
    + rewrite E. reflexivity.
  - rewrite (end_soc_closed a (x0 fr) H Hn' Hlen), met_Q.
    unfold soc_at. cbn [fsub fzero Q_Num]. rewrite Hz.
    split; intros E.
    + setoid_replace (final_soc a) with (- (0 - final_soc a)) by ring.
      rewrite E. reflexivity.
    + rewrite E. reflexivity.
Qed.

Lemma within_nth (b : list (Q * Q)) (x : list Q) (i : nat) :
  within b x = true -> (i < length b)%nat ->
  fst (nth i b (0, 0)) <= nth i x 0 <= snd (nth i b (0, 0)).
Proof.
  unfold within. intros Hw Hi. apply andb_prop in Hw as [Hl Hw].
  apply Nat.eqb_eq in Hl. revert x i Hl Hw Hi.
  induction b as [|[lo hi] b IH]; intros [|v x] i Hl Hw Hi; simpl in *; try lia;
    try discriminate.
  apply andb_prop in Hw as [Hv Hw]. destruct i as [|i].
  - cbn [fleb Q_Num] in Hv. apply andb_prop in Hv as [H1 H2].
    split; now apply Qle_bool_iff.
  - apply IH; [lia | exact Hw | lia].
Qed.

Lemma all_bounds_shape (a : @params Q) (fr : frame) :
  run_locals a = Ok fr ->
  length (all_bounds fr) = (3 * period fr)%nat /\
  forall i, (i < period fr)%nat ->
    nth (2 * period fr + i) (all_bounds fr) (0, 0) = (0, volume a).
Proof.
  intros H. open_frame H. remember (length p) as n eqn:En. split.
  - rewrite !length_app, !repeat_length. lia.
  - intros i Hi.
    rewrite app_nth2 by (rewrite repeat_length; lia). rewrite repeat_length.
    rewrite app_nth2 by (rewrite repeat_length; lia). rewrite repeat_length.
    apply nth_repeat_lt. lia.
Qed.

(** X8.  A vector inside the bounds can meet the start and the end
    constraints only if [input_soc] and [final_soc] lie between 0 and
    [volume]: the two fractions are compared with a soc that is bounded
    in MWh. *)
Theorem start_end_within_bounds (a : @params Q) (fr : frame) (x : list Q) :
  run_locals a = Ok fr ->
  (1 <= period fr)%nat ->
  within (all_bounds fr) x = true ->
  met (start_soc fr x) = true ->
  met (end_soc fr x) = true ->
  (0 <= input_soc a <= volume a) /\ (0 <= final_soc a <= volume a).
Proof.
  intros H Hn Hw Hs He.
  destruct (all_bounds_shape a H) as [Hlen Hb].
  assert (length x = (3 * period fr)%nat) as Hx.
  { unfold within in Hw. apply andb_prop in Hw as [Hl _].
    apply Nat.eqb_eq in Hl. congruence. }
  rewrite (start_soc_closed a x H Hn Hx) in Hs.
  rewrite (end_soc_closed a x H Hn Hx) in He.
  apply met_Q in Hs, He. cbn [fsub Q_Num] in Hs, He.
  assert (input_soc a == soc_at (period fr) x 0) as Es
    by (rewrite <- (Qplus_0_l (input_soc a)), <- Hs; ring).
  assert (final_soc a == soc_at (period fr) x (period fr - 1)) as Ee
    by (rewrite <- (Qplus_0_l (final_soc a)), <- He; ring).
  rewrite Es, Ee. unfold soc_at; cbn [fzero Q_Num].
  split.
  - pose proof (@within_nth (all_bounds fr) x (2 * period fr + 0) Hw ltac:(lia)) as B.
    rewrite (Hb 0%nat) in B by lia. exact B.
  - pose proof (@within_nth (all_bounds fr) x (2 * period fr + (period fr - 1)) Hw ltac:(lia)) as B.
    rewrite (Hb (period fr - 1)%nat) in B by lia. exact B.
Qed.

(** X9.  With a single period there is no transition to constrain, and
    the start and the end constraints bear on the same variable: both
    can be met only if [input_soc] equals [final_soc]. *)
Theorem single_period (a : @params Q) (p0 : Q) :
  prices a = Some [p0] -> divisors_ok a = true ->
  exists fr,
    run_locals a = Ok fr /\
    forall x, length x = 3%nat ->
      soc_change fr x = Ok [] /\
      (met (start_soc fr x) = true -> met (end_soc fr x) = true ->
       input_soc a == final_soc a).
Proof.
  intros Hp Hd. destruct (run_locals_Ok a Hp Hd) as [fr H].
  exists fr. split; [exact H|].
  assert (period fr = 1%nat) as Hper
    by (pose proof H as H'; open_frame H'; assert (p = [p0]) as -> by congruence;
        reflexivity).
  intros x Hx. rewrite <- Hper in Hx at 1.
  assert (length x = (3 * period fr)%nat) as Hx' by lia.
  split.
  - rewrite (soc_change_closed a x H Hx'). now rewrite Hper.
  - intros Hs He.
    rewrite (start_soc_closed a x H ltac:(lia) Hx') in Hs.
    rewrite (end_soc_closed a x H ltac:(lia) Hx') in He.
    apply met_Q in Hs, He. cbn [fsub Q_Num] in Hs, He.
    rewrite Hper in Hs, He. cbn [Nat.sub] in He.
    setoid_replace (input_soc a) with (soc_at 1 x 0 - (soc_at 1 x 0 - input_soc a))
      by ring.
    rewrite Hs, <- He. ring.
Qed.

End StartingPoint.

(** ** The dashboard callback *)

Section DashboardFacts.

Open Scope Q_scope.

Lemma run_model_divisors (df : dataframe)
    (cap vol eff isoc cc dc strike : Q) :
  divisors_ok (run_model_call df cap vol eff isoc cc dc strike) = true <->
  ~ cap == 0 /\ ~ vol == 0.
Proof.
  rewrite divisors_ok_Q. cbn [run_model_call capacity volume time_frequency].
  split.
  - intros (Hc & Hv & _). now split.
  - intros (Hc & Hv). repeat split; try assumption.
    intros E. discriminate E.
Qed.

(** X10.  The callback does nothing before the first click.  After a
    click it fails with [ZeroDivisionError] when the capacity or the
    volume entered is zero, and otherwise calls the solver on the
    day-ahead prices with [3 * len(prices)] unknowns; the time frequency
    it leaves at the default can never be the zero divisor. *)
Theorem run_model_outcome (df : dataframe) (n_clicks : nat)
    (cap vol eff isoc cc dc strike : Q) :
  (n_clicks = 0%nat ->
   run_model df n_clicks cap vol eff isoc cc dc strike = AppDone (AppReturn NoChildren)) /\
  (n_clicks <> 0%nat -> cap == 0 \/ vol == 0 ->
   run_model df n_clicks cap vol eff isoc cc dc strike
   = AppDone (AppRaise ZeroDivisionError)) /\
  (n_clicks <> 0%nat -> ~ cap == 0 -> ~ vol == 0 ->
   exists pb k,
     run_model df n_clicks cap vol eff isoc cc dc strike = AppCallMinimize pb k /\
     m_args pb = Some (day_ahead df) /\
     length (m_x0 pb) = (3 * length (day_ahead df))%nat).
Proof.
  split; [|split].
  - intros ->. reflexivity.
  - intros Hn Hz. unfold run_model.
    apply Nat.eqb_neq in Hn. rewrite Hn.
    assert (divisors_ok (run_model_call df cap vol eff isoc cc dc strike) = false) as Hd.
    { destruct (divisors_ok _) eqn:E; [|reflexivity].
      apply run_model_divisors in E as [Hc Hv]. destruct Hz; contradiction. }
    unfold run.
    rewrite (run_locals_Err (run_model_call df cap vol eff isoc cc dc strike)
               (p:=day_ahead df) eq_refl Hd).
    reflexivity.
  - intros Hn Hc Hv. unfold run_model.
    apply Nat.eqb_neq in Hn. rewrite Hn.
    assert (divisors_ok (run_model_call df cap vol eff isoc cc dc strike) = true) as Hd
      by (apply run_model_divisors; now split).
    destruct (run_reaches_solver (run_model_call df cap vol eff isoc cc dc strike)
                (p:=day_ahead df) eq_refl Hd) as (fr & Hfr & Hrun).
    rewrite Hrun. eexists; eexists. split; [reflexivity|].
    open_frame Hfr. cbn [run_model_call prices] in Hprices.
    injection Hprices as <-.
    split; [reflexivity|].
    cbn [minimize_call m_x0 x0]. unfold np_zeros. rewrite repeat_length. lia.
Qed.

(** X11.  What the dashboard plots.  Where the vector the solver returns
    meets the start and the end constraints, the SoC trace starts at the
    slider value of the starting SoC divided by the volume, and ends at
    50 divided by the volume, whatever else was entered: [final_soc] is
    always the default. *)
Theorem run_model_soc_trace (df : dataframe) (n_clicks : nat)
    (cap vol eff isoc cc dc strike : Q) :
  n_clicks <> 0%nat -> ~ cap == 0 -> ~ vol == 0 ->
  exists fr pb k,
    run_locals (run_model_call df cap vol eff isoc cc dc strike) = Ok fr /\
    run_model df n_clicks cap vol eff isoc cc dc strike = AppCallMinimize pb k /\
    forall sol : OptimizeResult,
      met (start_soc fr (sol_x sol)) = true ->
      met (end_soc fr (sol_x sol)) = true ->
      exists y s0 sN,
        soc_trace (k (Returned sol)) = Some y /\
        item0 y = Ok s0 /\ item_last y = Ok sN /\
        s0 == isoc / vol /\ sN == 50 / vol.
Proof.
  intros Hn Hc Hv. unfold run_model.
  apply Nat.eqb_neq in Hn. rewrite Hn.
  assert (divisors_ok (run_model_call df cap vol eff isoc cc dc strike) = true) as Hd
    by (apply run_model_divisors; now split).
  destruct (run_reaches_solver (run_model_call df cap vol eff isoc cc dc strike)
              (p:=day_ahead df) eq_refl Hd) as (fr & Hfr & Hrun).
  rewrite Hrun. exists fr. eexists; eexists.
  split; [exact Hfr|]. split; [reflexivity|].
  intros sol Hs He.
  destruct (soc_fraction_endpoints _ (sol_x sol) Hfr Hs He)
    as (u & w & Eu & Ew & Hu & Hw).
  cbn [extract render soc_trace fig_traces t_y].
  remember (scale fdiv (getslice (sol_x sol) (soc_idx fr)) (volume (call fr))) as soc
    eqn:Esoc.
  exists (scale fmul soc (flit 100)), (u * 100), (w * 100).
  split; [reflexivity|]. repeat split.
  - destruct soc as [|u' soc']; [discriminate|].
    injection Eu as ->. reflexivity.
  - unfold scale at 1. now rewrite (item_last_map _ _ Ew).
  - rewrite Hu. cbn [run_model_call input_soc volume fdiv flit Q_Num]. now field.
  - rewrite Hw.
    cbn [run_model_call final_soc volume defaults fdiv flit Q_Num]. now field.
Qed.

End DashboardFacts.

(** ** The objective is linear *)

Section Linearity.

Open Scope Q_scope.

Lemma sigma_linear (n : nat) (c : Q) (f g : nat -> Q) :
  sigma n (fun i => c * f i + g i) == c * sigma n f + sigma n g.
Proof.
  induction n as [|n IH].
  - unfold sigma; cbn [seq fold_left fzero Q_Num]. ring.
  - rewrite !sigma_S. cbn [fadd Q_Num]. rewrite IH. ring.
Qed.

Lemma nth_combination (x y : list Q) (c : Q) (i : nat) :
  (i < length x)%nat -> (i < length y)%nat ->
  nth i (zip_with Qplus (scale Qmult x c) y) 0 = nth i x 0 * c + nth i y 0.
Proof.
  intros Hx Hy.
  rewrite (nth_zip_with Qplus) by (rewrite ?length_scale; assumption).
  now rewrite (nth_scale Qmult) by assumption.
Qed.

(** X12.  The objective is a linear function of the decision vector: at
    [c * x + y] its value is [c] times the value at [x] plus the value at
    [y], for vectors of length [3 * period] and a price vector of length
    [period]. *)
Theorem objective_linear (a : @params Q) (fr : frame) (x y p : list Q) (c : Q) :
  run_locals a = Ok fr ->
  length x = (3 * period fr)%nat ->
  length y = (3 * period fr)%nat ->
  length p = period fr ->
  exists vx vy v,
    objective fr x p = Ok vx /\
    objective fr y p = Ok vy /\
    objective fr (zip_with Qplus (scale Qmult x c) y) p = Ok v /\
    v == c * vx + vy.
Proof.
  intros H Hx Hy Hp.
  assert (length (zip_with Qplus (scale Qmult x c) y) = (3 * period fr)%nat) as Hxy
    by (rewrite length_zip_with, length_scale; lia).
  rewrite (objective_closed a x p H Hx Hp), (objective_closed a y p H Hy Hp),
          (objective_closed a _ p H Hxy Hp).
  eexists; eexists; eexists. repeat (split; [reflexivity|]).
  rewrite !sum_map_seq. cbn [fsub Q_Num].
  rewrite (@sigma_Qeq (period fr)
             (buy fr (zip_with Qplus (scale Qmult x c) y) p)
             (fun i => c * buy fr x p i + buy fr y p i)).
  - rewrite (@sigma_Qeq (period fr)
               (sell fr (zip_with Qplus (scale Qmult x c) y) p)
               (fun i => c * sell fr x p i + sell fr y p i)).
    + rewrite !sigma_linear. ring.
    + intros i Hi. unfold sell, discharge_at. cbn [fmul fsub fzero Q_Num].
      rewrite nth_combination by lia. ring.
  - intros i Hi. unfold buy, charge_at. cbn [fmul fadd fzero Q_Num].
    rewrite nth_combination by lia. ring.
Qed.

End Linearity.

(** ** The problem as a whole *)

Section WholeProblem.

Context {F : Type} `{NF : Num F}.

(** X13.  With at least one period, the objective and the four
    constraint functions handed to the solver all return a value at
    every vector of length [3 * period]; the constraints are all
    equalities and stand for [period + 2] scalar equations. *)
Theorem callbacks_return (a : params) (p x : list F) :
  prices a = Some p -> divisors_ok a = true ->
  1 <= length p ->
  length x = 3 * length p ->
  exists pb k v rs,
    run a = CallMinimize pb k /\
    m_fun pb x p = Ok v /\
    map c_type (m_constraints pb) = ["eq"; "eq"; "eq"; "eq"]%string /\
    map (fun c => c_fun c x) (m_constraints pb) = map Ok rs /\
    list_sum (map residual_size rs) = length p + 2.
Proof.
  intros Hp Hd Hn Hx.
  destruct (run_reaches_solver a Hp Hd) as (fr & Hfr & Hrun).
  assert (period fr = length p) as Hper
    by (pose proof Hfr as H'; open_frame H'; congruence).
  rewrite <- Hper in Hx, Hn.
  exists (minimize_call fr), (extract fr).
  cbn [minimize_call m_fun m_constraints constraints map c_type c_fun].
  rewrite (objective_closed a x p Hfr Hx) by congruence.
  rewrite (soc_change_closed a x Hfr Hx).
  rewrite (start_soc_closed a x Hfr Hn Hx).
  rewrite (end_soc_closed a x Hfr Hn Hx).
  rewrite (no_final_discharge_closed a x Hfr Hn Hx).
  cbn [bind].
  eexists. eexists [_; _; _; _].
  split; [exact Hrun|]. split; [reflexivity|]. split; [reflexivity|].
  split; [reflexivity|].
  cbn [map residual_size]. rewrite length_map, length_seq.
  unfold list_sum; cbn [fold_right]. lia.
Qed.

End WholeProblem.

Section ReturnedSeries.

Open Scope Q_scope.

Lemma all_bounds_entries (a : @params Q) (fr : frame) (i : nat) :
  run_locals a = Ok fr ->
  (i < period fr)%nat ->
  nth i (all_bounds fr) (0, 0) = (0, capacity a) /\
  nth (period fr + i) (all_bounds fr) (0, 0) = (0, capacity a).
Proof.
  intros H Hi. open_frame H. remember (length p) as n eqn:En. split.
  - rewrite app_nth1 by (rewrite repeat_length; lia).
    now apply nth_repeat_lt.
  - rewrite app_nth2 by (rewrite repeat_length; lia). rewrite repeat_length.
    rewrite app_nth1 by (rewrite repeat_length; lia).
    apply nth_repeat_lt. lia.
Qed.

(** X14.  If the vector the solver returns lies inside the bounds and
    the volume is positive, the three series [run] returns have one
    entry per period, the charge and discharge entries lie between 0 and
    [capacity], and the soc entries between 0 and 1. *)
Theorem returned_series_ranges (a : @params Q) (fr : frame) (sol : OptimizeResult) :
  run_locals a = Ok fr ->
  0 < volume a ->
  within (all_bounds fr) (sol_x sol) = true ->
  exists charge discharge soc,
    extract fr (Returned sol) = Return (charge, discharge, soc, sol) /\
    length charge = period fr /\
    length discharge = period fr /\
    length soc = period fr /\
    Forall (fun v => 0 <= v <= capacity a) charge /\
    Forall (fun v => 0 <= v <= capacity a) discharge /\
    Forall (fun v => 0 <= v <= 1) soc.
Proof.
  intros H Hv Hw.
  destruct (all_bounds_shape a H) as [Hlen Hsoc].
  assert (length (sol_x sol) = (3 * period fr)%nat) as Hx.
  { unfold within in Hw. apply andb_prop in Hw as [Hl _].
    apply Nat.eqb_eq in Hl. congruence. }
  assert (charge_idx fr = (0, period fr)%nat /\
          discharge_idx fr = (period fr, period fr * 2)%nat /\
          soc_idx fr = (period fr * 2, period fr * 3)%nat /\
          call fr = a) as (Ec & Ed & Es & Ea)
    by (pose proof H as H'; open_frame H'; repeat split).
  eexists; eexists; eexists. split; [reflexivity|].
  rewrite Ec, Ed, Es, Ea.
  rewrite length_scale, !length_getslice_in by lia.
  split; [lia|]. split; [lia|]. split; [lia|].
  split; [|split].
  - apply Forall_nth. intros i d Hi. rewrite length_getslice_in in Hi by lia.
    rewrite nth_getslice by lia. rewrite (nth_indep _ d 0) by lia.
    pose proof (@within_nth (all_bounds fr) (sol_x sol) i Hw ltac:(lia)) as B.
    rewrite (proj1 (all_bounds_entries a (i:=i) H ltac:(lia))) in B. exact B.
  - apply Forall_nth. intros i d Hi. rewrite length_getslice_in in Hi by lia.
    rewrite nth_getslice by lia. rewrite (nth_indep _ d 0) by lia.
    pose proof (@within_nth (all_bounds fr) (sol_x sol) (period fr + i) Hw ltac:(lia)) as B.
    rewrite (proj2 (all_bounds_entries a (i:=i) H ltac:(lia))) in B. exact B.
  - apply Forall_nth. intros i d Hi.
    rewrite length_scale, length_getslice_in in Hi by lia.
    rewrite (nth_indep _ d 0) by (rewrite length_scale, length_getslice_in; lia).
    change (nth i (scale fdiv (getslice (sol_x sol) (period fr * 2, period fr * 3)%nat)
                     (volume a)) (@fzero Q Q_Num))
      with (nth i (scale fdiv (getslice (sol_x sol) (period fr * 2, period fr * 3)%nat)
                     (volume a)) 0).
    rewrite (nth_scale (F:=Q)) by (rewrite length_getslice_in; lia).
    rewrite nth_getslice by lia.
    pose proof (@within_nth (all_bounds fr) (sol_x sol) (2 * period fr + i) Hw ltac:(lia)) as B.
    rewrite (Hsoc i) in B by lia. cbn [fst snd] in B.
    replace (period fr * 2 + i)%nat with (2 * period fr + i)%nat by lia.
    cbn [fdiv Q_Num]. destruct B as [B0 B1]. split.
    + apply Qle_shift_div_l; [exact Hv|]. now rewrite Qmult_0_l.
    + apply Qle_shift_div_r; [exact Hv|]. now rewrite Qmult_1_l.
Qed.

End ReturnedSeries.

(** ** The further statements at the sample calls *)

Section MoreWitnesses.

Open Scope Q_scope.

Lemma boundary_residuals_two_mwh :
  exists fr,
    run_locals two_mwh = Ok fr /\
    (1 <= period fr)%nat /\
    length round_trip_x = (3 * period fr)%nat /\
    start_soc fr round_trip_x = Ok (fsub (soc_at 4 round_trip_x 0) (1 # 2)) /\
    end_soc fr round_trip_x = Ok (fsub (soc_at 4 round_trip_x 3) (1 # 2)) /\
    no_final_discharge fr round_trip_x = Ok (discharge_at 4 round_trip_x 3).
Proof.
  eexists. split; [reflexivity|]. split; [cbn; lia|]. split; [reflexivity|].
  apply (boundary_residuals two_mwh); [reflexivity | cbn; lia | reflexivity].
Defined.

Lemma empty_price_series_sample :
  exists fr,
    run_locals (with_prices []) = Ok fr /\
    run (with_prices []) = CallMinimize (minimize_call fr) (extract fr) /\
    m_x0 (minimize_call fr) = [] /\
    m_bounds (minimize_call fr) = [] /\
    forall x,
      objective fr x [] = Ok (fsub fzero fzero) /\
      soc_change fr x = Ok [] /\
      start_soc fr x = Err IndexError /\
      end_soc fr x = Err IndexError /\
      no_final_discharge fr x = Err IndexError.
Proof.
  exact (empty_price_series (with_prices []) eq_refl eq_refl).
Defined.

Lemma soc_change_ignores_last_period_two_mwh :
  exists fr,
    run_locals two_mwh = Ok fr /\
    round_trip_x <> round_trip_x' /\
    soc_change fr round_trip_x = soc_change fr round_trip_x'.
Proof.
  eexists. split; [reflexivity|]. split; [intros E; discriminate E|].
  apply (soc_change_ignores_last_period two_mwh); try reflexivity.
  intros i H3 H7. cbn [period] in H3, H7. cbn in H3, H7.
  do 12 (destruct i as [|i]; [first [reflexivity | exfalso; lia]|]).
  destruct i; reflexivity.
Defined.

Lemma objective_price_length_mismatch_two_mwh :
  exists fr,
    run_locals two_mwh = Ok fr /\
    objective fr round_trip_x [10; 50; 10] = Err ValueError.
Proof.
  eexists. split; [reflexivity|].
  apply (objective_price_length_mismatch two_mwh);
    [reflexivity | cbn; lia | cbn; lia | cbn; lia].
Defined.

Lemma soc_trajectory_two_mwh :
  exists fr,
    run_locals two_mwh = Ok fr /\
    met_all (soc_change fr round_trip_x) = true /\
    soc_at (period fr) round_trip_x 2 ==
    soc_at (period fr) round_trip_x 0
    + sigma 2 (fun i =>
        charge_at (period fr) round_trip_x i * (9 # 10) * (1 # 2)
        - discharge_at (period fr) round_trip_x i * (1 # 2)).
Proof.
  eexists. split; [reflexivity|]. split; [reflexivity|].
  apply (soc_trajectory two_mwh); try reflexivity. cbn; lia.
Defined.

Lemma energy_balance_two_mwh :
  exists fr,
    run_locals two_mwh = Ok fr /\
    met_all (soc_change fr round_trip_x) = true /\
    met (start_soc fr round_trip_x) = true /\
    met (end_soc fr round_trip_x) = true /\
    (1 # 2) - (1 # 2) ==
    sigma (period fr - 1) (fun i =>
      charge_at (period fr) round_trip_x i * (9 # 10) * (1 # 2)
      - discharge_at (period fr) round_trip_x i * (1 # 2)).
Proof.
  eexists. split; [reflexivity|]. do 3 (split; [reflexivity|]).
  apply (energy_balance two_mwh); try reflexivity. cbn; lia.
Defined.

Lemma initial_guess_feasibility_two_mwh :
  exists fr,
    run_locals two_mwh = Ok fr /\
    (exists v, objective fr (x0 fr) [10; 50; 10; 50] = Ok v /\ v == 0) /\
    met_all (soc_change fr (x0 fr)) = true /\
    met (no_final_discharge fr (x0 fr)) = true /\
    (met (start_soc fr (x0 fr)) = true <-> 1 # 2 == 0) /\
    (met (end_soc fr (x0 fr)) = true <-> 1 # 2 == 0).
Proof.
  apply (initial_guess_feasibility two_mwh); [reflexivity | reflexivity | cbn; lia].
Defined.

Lemma start_end_within_bounds_two_mwh :
  exists fr,
    run_locals two_mwh = Ok fr /\
    within (all_bounds fr) round_trip_x = true /\
    met (start_soc fr round_trip_x) = true /\
    met (end_soc fr round_trip_x) = true /\
    (0 <= 1 # 2 <= 2) /\ (0 <= 1 # 2 <= 2).
Proof.
  eexists. split; [reflexivity|]. do 3 (split; [reflexivity|]).
  eapply (start_end_within_bounds two_mwh round_trip_x);
    try reflexivity. cbn; lia.
Defined.

Lemma single_period_sample :
  exists fr,
    run_locals (with_prices [10]) = Ok fr /\
    forall x, length x = 3%nat ->
      soc_change fr x = Ok [] /\
      (met (start_soc fr x) = true -> met (end_soc fr x) = true ->
       1 # 2 == 1 # 2).
Proof.
  exact (single_period (with_prices [10]) eq_refl eq_refl).
Defined.

Lemma run_model_soc_trace_four_rows :
  exists fr pb k,
    run_locals (run_model_call four_rows 1 2 85 50 5 5 10) = Ok fr /\
    run_model four_rows 1 1 2 85 50 5 5 10 = AppCallMinimize pb k /\
    met (start_soc fr (sol_x round_trip_sol)) = true /\
    met (end_soc fr (sol_x round_trip_sol)) = true /\
    exists y s0 sN,
      soc_trace (k (Returned round_trip_sol)) = Some y /\
      item0 y = Ok s0 /\ item_last y = Ok sN /\
      s0 == 50 / 2 /\ sN == 50 / 2.
Proof.
  destruct (run_model_soc_trace four_rows (n_clicks:=1) (cap:=1) (vol:=2) 85 50 5 5 10)
    as (fr & pb & k & Hfr & Hrun & Hsol).
  - discriminate.
  - intros E; discriminate E.
  - intros E; discriminate E.
  - exists fr, pb, k. split; [exact Hfr|]. split; [exact Hrun|].
    assert (Ok fr = run_locals (run_model_call four_rows 1 2 85 50 5 5 10)) as E
      by (symmetry; exact Hfr).
    cbv in E. injection E as ->.
    split; [reflexivity|]. split; [reflexivity|].
    apply Hsol; reflexivity.
Defined.

Lemma objective_linear_two_mwh :
  exists fr vx vy v,
    run_locals two_mwh = Ok fr /\
    objective fr trade_x [10; 50; 10; 50] = Ok vx /\
    objective fr round_trip_x [10; 50; 10; 50] = Ok vy /\
    objective fr (zip_with Qplus (scale Qmult trade_x 2) round_trip_x)
      [10; 50; 10; 50] = Ok v /\
    v == 2 * vx + vy.
Proof.
  eexists. 
  destruct (objective_linear two_mwh trade_x round_trip_x [10; 50; 10; 50] 2
              (fr:=_) eq_refl eq_refl eq_refl eq_refl)
    as (vx & vy & v & Hx & Hy & Hv & E).
  exists vx, vy, v. split; [reflexivity|]. repeat split; assumption.
Defined.

Lemma callbacks_return_two_mwh :
  exists pb k v rs,
    run two_mwh = CallMinimize pb k /\
    m_fun pb trade_x [10; 50; 10; 50] = Ok v /\
    map c_type (m_constraints pb) = ["eq"; "eq"; "eq"; "eq"]%string /\
    map (fun c => c_fun c trade_x) (m_constraints pb) = map Ok rs /\
    list_sum (map residual_size rs) = (4 + 2)%nat.
Proof.
  apply (callbacks_return two_mwh (p:=[10; 50; 10; 50]) trade_x);
    [reflexivity | reflexivity | cbn; lia | reflexivity].
Defined.

Lemma returned_series_ranges_two_mwh :
  exists fr charge discharge soc,
    run_locals two_mwh = Ok fr /\
    within (all_bounds fr) (sol_x round_trip_sol) = true /\
    extract fr (Returned round_trip_sol) = Return (charge, discharge, soc, round_trip_sol) /\
    length charge = period fr /\
    length discharge = period fr /\
    length soc = period fr /\
    Forall (fun v => 0 <= v <= 1) charge /\
    Forall (fun v => 0 <= v <= 1) discharge /\
    Forall (fun v => 0 <= v <= 1) soc.
Proof.
  eexists.
  destruct (returned_series_ranges two_mwh (fr:=_) round_trip_sol eq_refl eq_refl eq_refl)
    as (c & d & s & H).
  exists c, d, s. split; [reflexivity|]. split; [reflexivity|]. exact H.
Defined.

End MoreWitnesses.

(** ** Binary64 at the ends of its range

    Positive arguments do not keep the three divisions away from the
    limits of the format. *)

Section Binary64Range.

Open Scope float_scope.

(** With capacity [1e-200] and volume [1e200] the quotient overflows:
    [steps_full_trip] is infinite and every entry of [soc_step] is NaN. *)
Lemma soc_step_nan_in_binary64 :
  exists fr,
    run_locals huge_ratio = Ok fr /\
    PrimFloat.ltb 0 (capacity huge_ratio) = true /\
    PrimFloat.ltb 0 (volume huge_ratio) = true /\
    PrimFloat.ltb 0 (time_frequency huge_ratio) = true /\
    steps_full_trip fr = infinity /\
    length (soc_step fr) = 3%nat /\
    Forall (fun s => PrimFloat.eqb s s = false) (soc_step fr).
Proof.
  eexists. split; [reflexivity|].
  repeat split; try (vm_compute; reflexivity).
  repeat constructor.
Qed.

(** With the two swapped the quotient underflows to zero, and the
    division by [steps_full_trip] raises. *)
Lemma run_underflow_in_binary64 :
  PrimFloat.ltb 0 (capacity tiny_ratio) = true /\
  PrimFloat.ltb 0 (volume tiny_ratio) = true /\
  PrimFloat.ltb 0 (time_frequency tiny_ratio) = true /\
  run_locals tiny_ratio = Err ZeroDivisionError /\
  run tiny_ratio = Done (Raise ZeroDivisionError).
Proof. repeat split; vm_compute; reflexivity. Qed.

End Binary64Range.
